(** * knit-di: the dependency-injection container ([container.ts])

    A shallow embedding of [class Container] and a verification of the
    container's registration, scoping and constructor-injection behaviour.

    The container is stateful and its providers are closures over [this], so
    the embedding is a state-passing interpreter: closures are data
    ([Provider]), a container reference is an index into a store of
    containers, and an object reference is an address in a heap.  Resolution
    can recurse without bound (a constructor dependency cycle), hence the
    interpreter is indexed by fuel. *)

From stdpp Require Import base option list gmap strings.
From Stdlib Require Import ZArith Lia.

(** ** Data model *)

(** Modelled from the spec: [enum Scope] is declared in [types.ts], which is
    not part of the sources at hand.  Its two members are the two cases of
    the [switch] in [provide]. *)
Inductive Scope := Singleton | Prototype.

(** A constructible type ([Constructor<T>]).  A JavaScript class is an object
    with identity; [ctor_name] is its [name] property and [ctor_text] what
    string conversion of the class yields.  Two records are the same class
    exactly when they are equal. *)
Record Constructor := Ctor {
  ctor_id : nat;
  ctor_name : string;
  ctor_text : string;
}.

(** Modelled from the spec: the declaration of [InjectionToken] in [types.ts]
    is not part of the sources at hand.  A token is either a constructible
    type, used as its own key, or a named token (an opaque string). *)
Inductive InjectionToken :=
  | TokType (ctor : Constructor)
  | TokNamed (name : string).

#[global] Instance Scope_eq_dec : EqDecision Scope.
Proof. solve_decision. Defined.
#[global] Instance Constructor_eq_dec : EqDecision Constructor.
Proof. solve_decision. Defined.
#[global] Instance InjectionToken_eq_dec : EqDecision InjectionToken.
Proof. solve_decision. Defined.

#[global] Instance Constructor_countable : Countable Constructor.
Proof.
  apply (inj_countable' (fun c => (ctor_id c, ctor_name c, ctor_text c))
                        (fun '(i, n, t) => Ctor i n t)).
  by intros [].
Defined.

#[global] Instance InjectionToken_countable : Countable InjectionToken.
Proof.
  apply (inj_countable'
           (fun t => match t with TokType c => inl c | TokNamed s => inr s end)
           (fun x => match x with inl c => TokType c | inr s => TokNamed s end)).
  by intros [].
Defined.

(** JavaScript values as far as the container handles them: [undefined] and
    references to heap objects.  [===] on references is address equality. *)
Inductive Value :=
  | VUndefined
  | VObject (addr : nat).

#[global] Instance Value_eq_dec : EqDecision Value.
Proof. solve_decision. Defined.

(** The object built by [new ctor(...args)]: it remembers its class and the
    arguments its constructor received (a class with parameter properties, as
    in [constructor(private readonly emailService: EmailService) {}]). *)
Record Obj := mkObj {
  obj_class : Constructor;
  obj_args : list Value;
}.

Abbreviation Heap := (list Obj) (only parsing).

(** [throw new Error(message)]. *)
Record Error := JsError { message : string }.

(** What a user-supplied factory does when it is called: it may allocate
    objects (appended to the heap, so existing objects never disappear) and
    then either returns a value or throws.  A factory constructs; it does not
    call back into a container.  The one provider that does is the
    container's own closure over [create], modelled separately below. *)
Inductive Completion :=
  | Return (v : Value)
  | Raise (e : Error).

Definition Factory := Heap -> list Obj * Completion.

Abbreviation ContainerRef := nat (only parsing).

(** [Provider<T> = () => T], defunctionalised.  The three closures that can
    sit in a container's [dependencies] map:
    - a user-supplied factory passed to [provide];
    - [() => this.create(type)], built by [register];
    - the memoizing closure returned by [singletonProvider]. *)
Inductive Provider :=
  | Custom (f : Factory)
  | CreateClosure (this : ContainerRef) (type : Constructor)
  | SingletonClosure (this : ContainerRef) (type : InjectionToken)
                     (provider : Provider).

(** The two private fields of a container. *)
Record Container := mkContainer {
  instances : gmap InjectionToken Value;
  dependencies : gmap InjectionToken Provider;
}.

(** [new Container()]. *)
Definition new_Container : Container :=
  {| instances := ∅; dependencies := ∅ |}.

#[global] Instance Container_inhabited : Inhabited Container :=
  populate new_Container.

(** A sparse JavaScript array: [None] is a hole. *)
Abbreviation SparseArray A := (list (option A)) (only parsing).

(** The program state.
    - [heap]: the objects allocated so far;
    - [containers]: the containers allocated so far; a reference is a
      position in this list;
    - [design_paramtypes]: the [Reflect] metadata ["design:paramtypes"] of
      each class, the array the compiler emitted (it is handed out by
      reference, and [getParams] writes into it);
    - [token_key]: the [Reflect] metadata under [TOKEN_KEY], the object that
      maps a parameter position to the token bound to it ([TokenRegistry]
      and the decorator that fills it are declared outside [container.ts];
      the keys are taken as integers, negative ones included, and the upper
      limit of JavaScript array indices is left out);
    - [invocations]: ghost state, never read by the program: one entry for
      each call of the raw provider registered under a token of a
      container. *)
Record World := mkWorld {
  heap : Heap;
  containers : list Container;
  design_paramtypes : gmap Constructor (SparseArray InjectionToken);
  token_key : gmap Constructor (gmap Z InjectionToken);
  invocations : list (ContainerRef * InjectionToken);
}.

(** The outcome of running a piece of the program from a state.  An exception
    leaves the state as it was when it was thrown. *)
Inductive Outcome (A : Type) :=
  | Ok (a : A) (w : World)
  | Throw (e : Error) (w : World)
  | OutOfFuel.
Arguments Ok {A} a w.
Arguments Throw {A} e w.
Arguments OutOfFuel {A}.

(** Stateful computations: the state and error monad of the program. *)
Definition M (A : Type) := World -> Outcome A.

Definition ret {A} (a : A) : M A := fun w => Ok a w.
Definition throw {A} (e : Error) : M A := fun w => Throw e w.

Definition bind {A B} (m : M A) (k : A -> M B) : M B :=
  fun w =>
    match m w with
    | Ok a w' => k a w'
    | Throw e w' => Throw e w'
    | OutOfFuel => OutOfFuel
    end.

Notation "'do' x <- m ; k" := (bind m (fun x => k))
  (at level 10, x name, m at level 100, k at level 200,
   format "'[v' 'do'  x  <-  m ; '/' k ']'").

Definition gets {A} (f : World -> A) : M A := fun w => Ok (f w) w.
Definition modify (f : World -> World) : M () := fun w => Ok () (f w).

(** ** State accessors *)

Definition the_container (this : ContainerRef) (w : World) : Container :=
  containers w !!! this.

Definition set_heap (h : Heap) (w : World) : World :=
  {| heap := h; containers := containers w;
     design_paramtypes := design_paramtypes w; token_key := token_key w;
     invocations := invocations w |}.

Definition set_container (this : ContainerRef) (c : Container) (w : World) : World :=
  {| heap := heap w; containers := <[this := c]> (containers w);
     design_paramtypes := design_paramtypes w; token_key := token_key w;
     invocations := invocations w |}.

Definition set_paramtypes (ctor : Constructor) (params : SparseArray InjectionToken)
    (w : World) : World :=
  {| heap := heap w; containers := containers w;
     design_paramtypes := <[ctor := params]> (design_paramtypes w);
     token_key := token_key w; invocations := invocations w |}.

(** Ghost: note that the raw provider registered under [type] in container
    [this] is being called. *)
Definition note_invocation (this : ContainerRef) (type : InjectionToken) (w : World) : World :=
  {| heap := heap w; containers := containers w;
     design_paramtypes := design_paramtypes w; token_key := token_key w;
     invocations := invocations w ++ [(this, type)] |}.

(** [this.instances.set(type, v)] *)
Definition instances_set (this : ContainerRef) (type : InjectionToken) (v : Value)
    (w : World) : World :=
  let c := the_container this w in
  set_container this
    {| instances := <[type := v]> (instances c); dependencies := dependencies c |} w.

(** [this.dependencies.set(type, p)] *)
Definition dependencies_set (this : ContainerRef) (type : InjectionToken) (p : Provider)
    (w : World) : World :=
  let c := the_container this w in
  set_container this
    {| instances := instances c; dependencies := <[type := p]> (dependencies c) |} w.

(** ** The container's methods *)

(** [`${type.name}`]: the [name] of a class; a string has no [name]
    property, and [undefined] is printed as such. *)
Definition type_name (type : InjectionToken) : string :=
  match type with
  | TokType ctor => ctor_name ctor
  | TokNamed _ => "undefined"%string
  end.

(** [`${type}`] *)
Definition token_to_string (type : InjectionToken) : string :=
  match type with
  | TokType ctor => ctor_text ctor
  | TokNamed name => name
  end.

Definition resolve_error (type : InjectionToken) : Error :=
  JsError ("Error resolving type " +:+ type_name type)%string.

Definition provide_error (type : InjectionToken) : Error :=
  JsError ("Type " +:+ token_to_string type +:+ " already has a registered provider")%string.

(** The stored provider is the raw one unless it is a memoizing closure. *)
Definition is_raw (p : Provider) : bool :=
  match p with
  | SingletonClosure _ _ _ => false
  | _ => true
  end.

(** [resolve], lines 20-26, with the call [provider()] left open.  The
    parameter is declared a [Constructor], but [create] hands it whatever
    [getParams] yields, named tokens included.  The write to [invocations]
    is ghost code. *)
Definition resolve_with (invoke : Provider -> M Value)
    (this : ContainerRef) (type : InjectionToken) : M Value :=
  do provider <- gets (fun w => dependencies (the_container this w) !! type);
  match provider with
  | None => throw (resolve_error type)
  | Some provider =>
      do _ <- (if is_raw provider then modify (note_invocation this type) else ret ());
      invoke provider
  end.

(** [singletonProvider], lines 28-35: the closure it returns... *)
Definition singletonProvider (this : ContainerRef) (type : InjectionToken)
    (provider : Provider) : Provider :=
  SingletonClosure this type provider.

(** ...and what that closure does when called.  The write to [invocations]
    is ghost code. *)
Definition singleton_closure_body (invoke : Provider -> M Value)
    (this : ContainerRef) (type : InjectionToken) (provider : Provider) : M Value :=
  do has <- gets (fun w => bool_decide (is_Some (instances (the_container this w) !! type)));
  do _ <- (if negb has
           then do _ <- modify (note_invocation this type);
                do v <- invoke provider;
                modify (instances_set this type v)
           else ret ());
  gets (fun w => default VUndefined (instances (the_container this w) !! type)).

(** [provide], lines 37-49.  A caller that leaves [scope] out passes
    [Singleton]. *)
Definition provide (this : ContainerRef) (type : InjectionToken) (provider : Provider)
    (scope : Scope) : M () :=
  do has <- gets (fun w => bool_decide (is_Some (dependencies (the_container this w) !! type)));
  if has then throw (provide_error type)
  else match scope with
       | Singleton =>
           modify (dependencies_set this type (singletonProvider this type provider))
       | Prototype =>
           modify (dependencies_set this type provider)
       end.

(** [register], lines 51-53. *)
Definition register (this : ContainerRef) (type : Constructor) (scope : Scope) : M () :=
  provide this (TokType type) (CreateClosure this type) scope.

(** [params[i] = x] on an array.  A non-negative [i] is an array index: the
    element is overwritten, or the array grows to length [i + 1], the new
    positions before [i] being holes.  A negative [i] is not an index: the
    write creates a property and leaves the elements alone. *)
Definition array_write {A} (arr : SparseArray A) (i : Z) (x : A) : SparseArray A :=
  if (i <? 0)%Z then arr
  else
    let n := Z.to_nat i in
    if (n <? length arr)%nat then <[n := Some x]> arr
    else arr ++ replicate (n - length arr) None ++ [Some x].

(** [Object.keys(injectionTokens).forEach(paramIdx => params[+paramIdx] =
    injectionTokens[paramIdx])].  The keys are distinct, so the order in which
    they are visited does not change the result ([apply_overrides_lookup]). *)
Definition apply_overrides (injectionTokens : gmap Z InjectionToken)
    (params : SparseArray InjectionToken) : SparseArray InjectionToken :=
  foldl (fun ps '(paramIdx, token) => array_write ps paramIdx token) params
        (map_to_list injectionTokens).

(** [getParams], lines 62-68.  [params] is the metadata array itself when
    there is one, so the writes land in the metadata; it is a fresh array
    otherwise. *)
Definition getParams (ctor : Constructor) : M (SparseArray InjectionToken) :=
  fun w =>
    let metadata := design_paramtypes w !! ctor in
    let injectionTokens := default ∅ (token_key w !! ctor) in
    let params := apply_overrides injectionTokens (default [] metadata) in
    Ok params (match metadata with
               | Some _ => set_paramtypes ctor params w
               | None => w
               end).

(** [Array.prototype.map]: the callback runs on the elements from left to
    right and is not called on holes, which stay holes. *)
Fixpoint array_map {A B} (f : A -> M B) (arr : SparseArray A) : M (SparseArray B) :=
  match arr with
  | [] => ret []
  | None :: rest =>
      do ys <- array_map f rest;
      ret (None :: ys)
  | Some x :: rest =>
      do y <- f x;
      do ys <- array_map f rest;
      ret (Some y :: ys)
  end.

(** [...array]: spreading reads a hole as [undefined]. *)
Definition spread (arr : SparseArray Value) : list Value :=
  default VUndefined <$> arr.

(** [new ctor(...args)] *)
Definition construct (ctor : Constructor) (args : list Value) : M Value :=
  fun w =>
    Ok (VObject (length (heap w)))
       (set_heap (heap w ++ [{| obj_class := ctor; obj_args := args |}]) w).

(** [create], lines 55-60, with [this.resolve] left open. *)
Definition create_with (resolve : InjectionToken -> M Value) (ctor : Constructor) : M Value :=
  do params <- getParams ctor;
  do args <- array_map resolve params;
  construct ctor (spread args).

(** Calling a user-supplied factory. *)
Definition call_factory (f : Factory) : M Value :=
  fun w =>
    let '(objs, c) := f (heap w) in
    let w' := set_heap (heap w ++ objs) w in
    match c with
    | Return v => Ok v w'
    | Raise e => Throw e w'
    end.

(** Calling a provider: [provider()]. *)
Fixpoint invoke (fuel : nat) (provider : Provider) : M Value :=
  match fuel with
  | 0 => fun _ => OutOfFuel
  | S fuel =>
      match provider with
      | Custom f => call_factory f
      | CreateClosure this type =>
          create_with (resolve_with (invoke fuel) this) type
      | SingletonClosure this type provider =>
          singleton_closure_body (invoke fuel) this type provider
      end
  end.

Definition resolve (fuel : nat) (this : ContainerRef) (type : InjectionToken) : M Value :=
  resolve_with (invoke fuel) this type.

Definition create (fuel : nat) (this : ContainerRef) (ctor : Constructor) : M Value :=
  create_with (resolve fuel this) ctor.

(** [Container.newContainer()], lines 11-13. *)
Definition newContainer : M ContainerRef :=
  fun w =>
    Ok (length (containers w))
       {| heap := heap w; containers := containers w ++ [new_Container];
          design_paramtypes := design_paramtypes w; token_key := token_key w;
          invocations := invocations w |}.

(** [Container.getInstance()], lines 7-9 and 15: the static [instance] is the
    first container ever allocated. *)
Definition getInstance : M ContainerRef := ret 0.

(** The state once the module is loaded: the classes are declared, with the
    metadata their decorators wrote, and the static [instance] exists. *)
Definition initial_world
    (paramtypes : gmap Constructor (SparseArray InjectionToken))
    (tokens : gmap Constructor (gmap Z InjectionToken)) : World :=
  {| heap := []; containers := [new_Container];
     design_paramtypes := paramtypes; token_key := tokens; invocations := [] |}.

(** ** Vocabulary of the specification *)

(** [arr[j]], reading a hole or a position past the end as absent. *)
Definition slot {A} (arr : SparseArray A) (j : nat) : option A :=
  mjoin (arr !! j).

(** One past the highest array index among the keys of the override object. *)
Definition overrides_bound_list (l : list (Z * InjectionToken)) : nat :=
  foldr (fun '(i, _) n => if (i <? 0)%Z then n else n `max` S (Z.to_nat i)) 0 l.

Definition overrides_bound (injectionTokens : gmap Z InjectionToken) : nat :=
  overrides_bound_list (map_to_list injectionTokens).

(** The state an outcome ends in, if it ends. *)
Definition outcome_world {A} (r : Outcome A) : option World :=
  match r with
  | Ok _ w => Some w
  | Throw _ w => Some w
  | OutOfFuel => None
  end.

(** What [provide] puts in [dependencies] for a provider and a scope. *)
Definition stored_for (this : ContainerRef) (type : InjectionToken) (p : Provider)
    (scope : Scope) : Provider :=
  match scope with
  | Singleton => singletonProvider this type p
  | Prototype => p
  end.

(** The value an outcome returns, and the exception it throws. *)
Definition returned {A} (r : Outcome A) : option A :=
  match r with
  | Ok a _ => Some a
  | _ => None
  end.

Definition thrown {A} (r : Outcome A) : option Error :=
  match r with
  | Throw e _ => Some e
  | _ => None
  end.

(** The same outcome in another state. *)
Definition map_outcome {A} (f : World -> World) (r : Outcome A) : Outcome A :=
  match r with
  | Ok a w => Ok a (f w)
  | Throw e w => Throw e (f w)
  | OutOfFuel => OutOfFuel
  end.

(** A reference denotes a container once [new Container()] has produced it. *)
Definition allocated (this : ContainerRef) (w : World) : Prop :=
  this < length (containers w).

#[global] Instance allocated_dec this w : Decision (allocated this w).
Proof. unfold allocated. apply _. Defined.

Definition registered (this : ContainerRef) (type : InjectionToken) (w : World) : Prop :=
  is_Some (dependencies (the_container this w) !! type).

Definition cached (this : ContainerRef) (type : InjectionToken) (w : World) : Prop :=
  is_Some (instances (the_container this w) !! type).

#[global] Instance registered_dec this type w : Decision (registered this type w).
Proof. unfold registered. apply _. Defined.

#[global] Instance cached_dec this type w : Decision (cached this type w).
Proof. unfold cached. apply _. Defined.

(** How many times the raw provider registered under [type] in container
    [this] has been called so far. *)
Definition invocation_count (this : ContainerRef) (type : InjectionToken) (w : World) : nat :=
  length (filter (fun e => e = (this, type)) (invocations w)).

(** The parameters [getParams] computes for a class in a state. *)
Definition declared_params (ctor : Constructor) (w : World) : SparseArray InjectionToken :=
  default [] (design_paramtypes w !! ctor).

Definition overrides (ctor : Constructor) (w : World) : gmap Z InjectionToken :=
  default ∅ (token_key w !! ctor).

Definition effective_params (ctor : Constructor) (w : World) : SparseArray InjectionToken :=
  apply_overrides (overrides ctor w) (declared_params ctor w).

(** A class counts as registered by [register] with [scope] and not yet
    resolved when [dependencies] holds what [register] stored and, for a
    singleton, nothing is cached. *)
Definition registered_class (this : ContainerRef) (ctor : Constructor) (scope : Scope)
    (w : World) : Prop :=
  dependencies (the_container this w) !! TokType ctor
    = Some (stored_for this (TokType ctor) (CreateClosure this ctor) scope)
  /\ ~ cached this (TokType ctor) w.

(** The state [getParams] leaves: the parameters it computed are in the
    metadata array when the class has one. *)
Definition after_getParams (ctor : Constructor) (w : World) : World :=
  match design_paramtypes w !! ctor with
  | Some _ => set_paramtypes ctor (effective_params ctor w) w
  | None => w
  end.

(** The raw providers the container's own interface puts under a token: a
    user-supplied factory ([provide]) or the closure over [create]
    ([register]). *)
Inductive raw_provider (this : ContainerRef) : InjectionToken -> Provider -> Prop :=
  | raw_custom type f :
      raw_provider this type (Custom f)
  | raw_create ctor :
      raw_provider this (TokType ctor) (CreateClosure this ctor).

(** What [provide] stores for a raw provider: the provider itself
    (Prototype) or its memoizing closure (Singleton). *)
Inductive stored_provider (this : ContainerRef) (type : InjectionToken) : Provider -> Prop :=
  | stored_prototype p :
      raw_provider this type p -> stored_provider this type p
  | stored_singleton p :
      raw_provider this type p ->
      stored_provider this type (SingletonClosure this type p).

(** The states the interface can produce: every stored provider was put
    there by [provide] or [register] on that very container; a cached
    instance belongs to a token registered as a singleton whose raw provider
    has been called; and only registered tokens have had their provider
    called. *)
Record wf (w : World) : Prop := {
  wf_stored : forall this type p,
    dependencies (the_container this w) !! type = Some p ->
    stored_provider this type p;
  wf_cached : forall this type,
    cached this type w ->
    (exists raw, dependencies (the_container this w) !! type
                 = Some (SingletonClosure this type raw))
    /\ (this, type) ∈ invocations w;
  wf_invoked : forall this type,
    (this, type) ∈ invocations w -> registered this type w;
}.

(** The calls a client of the container can make. *)
Inductive Call :=
  | CallProvide (this : ContainerRef) (type : InjectionToken) (f : Factory) (scope : Scope)
  | CallRegister (this : ContainerRef) (type : Constructor) (scope : Scope)
  | CallResolve (fuel : nat) (this : ContainerRef) (type : InjectionToken)
  | CallNewContainer.

Definition run_call (c : Call) : M () :=
  match c with
  | CallProvide this type f scope => provide this type (Custom f) scope
  | CallRegister this type scope => register this type scope
  | CallResolve fuel this type => do _ <- resolve fuel this type; ret ()
  | CallNewContainer => do _ <- newContainer; ret ()
  end.

(** The container a call is made on. *)
Definition call_target (c : Call) : option ContainerRef :=
  match c with
  | CallProvide this _ _ _ | CallRegister this _ _ | CallResolve _ this _ => Some this
  | CallNewContainer => None
  end.

(** One call on an existing container, whether it returns or throws. *)
Definition step (w w' : World) : Prop :=
  exists c, (forall this, call_target c = Some this -> allocated this w)
            /\ outcome_world (run_call c w) = Some w'.

(** Any number of calls. *)
Definition steps : World -> World -> Prop := rtc step.

(** [w'] is a later state of the same resolution as [w]: nothing was
    registered or unregistered, the heap and the caches only grew, and every
    class still has the same parameters. *)
Record extends (w w' : World) : Prop := {
  ext_heap : heap w `prefix_of` heap w';
  ext_containers : length (containers w') = length (containers w);
  ext_dependencies : forall this,
    dependencies (the_container this w') = dependencies (the_container this w);
  ext_instances : forall this,
    instances (the_container this w) ⊆ instances (the_container this w');
  ext_token_key : token_key w' = token_key w;
  ext_params : forall ctor, effective_params ctor w' = effective_params ctor w;
  ext_invocations : invocations w `prefix_of` invocations w';
}.

(** A provider that refers to no container but [this]. *)
Fixpoint owned (this : ContainerRef) (p : Provider) : Prop :=
  match p with
  | Custom _ => True
  | CreateClosure this' _ => this' = this
  | SingletonClosure this' _ p => this' = this /\ owned this p
  end.

(** Every provider stored in container [this] refers to no other
    container. *)
Definition self_contained (this : ContainerRef) (w : World) : Prop :=
  forall type p,
    dependencies (the_container this w) !! type = Some p -> owned this p.

(** [m], run on container [c1], is blind to container [c2]: it does the
    same when [c2] is replaced by [X] beforehand, and [X] is still there
    afterwards. *)
Definition blind (c1 c2 : ContainerRef) (X : Container) {A} (m : M A) : Prop :=
  forall w, self_contained c1 w ->
    m (set_container c2 X w) = map_outcome (set_container c2 X) (m w).

(** A raw provider that produces fresh objects: a factory that returns, at
    every call, an object it has just allocated, or the closure over
    [create], which ends in [new]. *)
Definition produces_fresh (p : Provider) : Prop :=
  match p with
  | Custom f =>
      forall h, exists k, k < length (f h).1 /\ (f h).2 = Return (VObject (length h + k))
  | CreateClosure _ _ => True
  | SingletonClosure _ _ _ => False
  end.

(** [array_map f arr] took the state from [w] to [w'] and produced [ys]: the
    elements were handled from left to right, each from the state the
    previous one left. *)
Inductive mapped_in_order {A B} (f : A -> M B) :
    SparseArray A -> World -> SparseArray B -> World -> Prop :=
  | mapped_nil w :
      mapped_in_order f [] w [] w
  | mapped_hole rest w ys w' :
      mapped_in_order f rest w ys w' ->
      mapped_in_order f (None :: rest) w (None :: ys) w'
  | mapped_elem x rest w y w1 ys w' :
      f x w = Ok y w1 ->
      mapped_in_order f rest w1 ys w' ->
      mapped_in_order f (Some x :: rest) w (Some y :: ys) w'.

(** ** The classes of the README, for examples *)

Definition EmailService : Constructor :=
  Ctor 0 "EmailService" "class EmailService { }".

Definition MyApplication : Constructor :=
  Ctor 1 "MyApplication" "class MyApplication { }".

(** [class EmailService {}] and
    [class MyApplication { constructor(emailService: EmailService) {} }],
    both decorated, so that the compiler emitted their parameter types. *)
Definition readme_world : World :=
  initial_world
    {[ EmailService := []; MyApplication := [Some (TokType EmailService)] ]}
    ∅.

(** The default container and two containers made by [newContainer()],
    references 1 and 2. *)
Definition two_container_world : World :=
  {| heap := [];
     containers := [new_Container; new_Container; new_Container];
     design_paramtypes := design_paramtypes readme_world;
     token_key := token_key readme_world;
     invocations := [] |}.

(** A factory that allocates nothing and returns [v]: [() => v]. *)
Definition constant_factory (v : Value) : Factory :=
  fun _ => ([], Return v).

(** A factory that allocates an object and returns it:
    [() => new ctor()]. *)
Definition fresh_factory (ctor : Constructor) : Factory :=
  fun h => ([{| obj_class := ctor; obj_args := [] |}], Return (VObject (length h))).

(** The README's interface binding: [EmailService] is an interface, so the
    compiler emitted [Object] for the parameter, and [@inject("EmailService")]
    bound position 0 to the named token. *)
Definition ObjectCtor : Constructor :=
  Ctor 2 "Object" "function Object() { [native code] }".

Definition interface_world : World :=
  initial_world
    {[ MyApplication := [Some (TokType ObjectCtor)] ]}
    {[ MyApplication := {[ 0%Z := TokNamed "EmailService" ]} ]}.

(** The same, with an object [customA] already on the heap, at address 0. *)
Definition interface_world_customA : World :=
  set_heap [{| obj_class := ObjectCtor; obj_args := [] |}] interface_world.

(** [MyApplication] with its one declared parameter, and a token bound to
    position 2, past the declared parameters. *)
Definition out_of_range_world : World :=
  initial_world
    {[ EmailService := []; MyApplication := [Some (TokType EmailService)] ]}
    {[ MyApplication := {[ 2%Z := TokNamed "extra" ]} ]}.

(** The same class with a token bound to position -1. *)
Definition negative_override_world : World :=
  initial_world
    {[ EmailService := []; MyApplication := [Some (TokType EmailService)] ]}
    {[ MyApplication := {[ (-1)%Z := TokNamed "extra" ]} ]}.

(** Both classes registered as singletons in the default container, as the
    [@injectable()] decorator does. *)
Definition register_both : M () :=
  do _ <- register 0 EmailService Singleton;
  register 0 MyApplication Singleton.

(** The state in which the token at position [i] of [ctor] was never bound. *)
Definition without_override (ctor : Constructor) (i : Z) (w : World) : World :=
  {| heap := heap w; containers := containers w;
     design_paramtypes := design_paramtypes w;
     token_key := <[ctor := delete i (overrides ctor w)]> (token_key w);
     invocations := invocations w |}.

(** The arguments the constructor received, when a construction returned. *)
Definition constructor_arguments (r : Outcome Value) : option (list Value) :=
  match r with
  | Ok (VObject b) w => obj_args <$> heap w !! b
  | _ => None
  end.

(** A memoizing closure is in its place when it is the provider stored
    under its own token in its own container. *)
Definition placed (p : Provider) (w : World) : Prop :=
  match p with
  | SingletonClosure this type _ =>
      dependencies (the_container this w) !! type = Some p
  | _ => True
  end.

(** [post R m]: whenever [m] ends, in a value or an exception, the final
    state is [R]-related to the initial one. *)
Definition post (R : relation World) {A} (m : M A) : Prop :=
  forall w, match m w with
            | Ok _ w' | Throw _ w' => R w w'
            | OutOfFuel => True
            end.

(** [m'] does what [m] does wherever [m] ends. *)
Definition refines {A} (m m' : M A) : Prop :=
  forall w, m w <> OutOfFuel -> m' w = m w.

(** [inv I m]: [m] keeps the state property [I], however it ends. *)
Definition inv (I : World -> Prop) {A} (m : M A) : Prop :=
  forall w, I w ->
    match m w with
    | Ok _ w' | Throw _ w' => I w'
    | OutOfFuel => True
    end.

(** The singleton under [type] in container [this] has been resolved: its
    memoizing closure is registered, [v] is cached, and its raw provider
    has been called [n] times. *)
Definition pinned (this : ContainerRef) (type : InjectionToken) (raw : Provider)
    (v : Value) (n : nat) (w : World) : Prop :=
  dependencies (the_container this w) !! type = Some (SingletonClosure this type raw)
  /\ instances (the_container this w) !! type = Some v
  /\ invocation_count this type w = n.

(** ** Vocabulary for the absence of re-entrant resolution *)

(** [w'] is a later state of the same resolution as [w] in which no
    singleton was resolved in between: the caches are the same. *)
Definition quiet (w w' : World) : Prop :=
  extends w w'
  /\ forall this, instances (the_container this w') = instances (the_container this w).

(** None of the keys of [K] (a container and a token) is cached. *)
Definition uncached (K : list (ContainerRef * InjectionToken)) (w : World) : Prop :=
  forall k, k ∈ K -> ~ cached k.1 k.2 w.

(** Every run of [m] that returns, from a later state than [w_n] in which
    the keys of [K] are still uncached, contains a run of [raw] that
    returns, with less fuel, from a state with the same caches. *)
Definition follows (raw : Provider) (w_n : World)
    (K : list (ContainerRef * InjectionToken)) {A} (m : nat -> M A) : Prop :=
  forall fuel2 w2 a2 w2',
    extends w_n w2 -> uncached K w2 -> m fuel2 w2 = Ok a2 w2' ->
    exists fuel3 w3 v3 w3',
      fuel3 < fuel2 /\ quiet w2 w3 /\ invoke fuel3 raw w3 = Ok v3 w3'.

(** The run of [m] from [w] to [w'] went through a first call of the raw
    provider of the singleton [(this, type)], at state [w_n], that returned;
    and every later run of [m] goes through such a call again. *)
Definition reentry (this : ContainerRef) (type : InjectionToken) (raw : Provider)
    (w w' : World) {A} (m : nat -> M A) : Prop :=
  exists w_n K fuel_n v_n w_n',
    extends w w_n /\ extends w_n w'
    /\ (this, type) ∈ K /\ uncached K w_n
    /\ invoke fuel_n raw w_n = Ok v_n w_n'
    /\ follows raw w_n K m.

(** [w'] is a later state of the same resolution as [w], and if [type] is a
    singleton of [this] that is still not cached in [w'], its raw provider
    was not called in between. *)
Definition silent (this : ContainerRef) (type : InjectionToken) (w w' : World) : Prop :=
  extends w w'
  /\ ((exists raw, dependencies (the_container this w) !! type
                   = Some (SingletonClosure this type raw)) ->
      ~ cached this type w' ->
      invocation_count this type w' = invocation_count this type w).

(** [returning R m]: whenever [m] returns, the final state is [R]-related
    to the initial one. *)
Definition returning (R : relation World) {A} (m : M A) : Prop :=
  forall w a w', m w = Ok a w' -> R w w'.

(** ** Further vocabulary *)

(** The state an outcome ends in, or [w0] when it does not end. *)
Definition world_of {A} (r : Outcome A) (w0 : World) : World :=
  default w0 (outcome_world r).

(** Two classes that take each other as their only constructor parameter,
    both registered, one in each scope. *)
Definition circular_world : World :=
  let w0 := initial_world
              {[ EmailService := [Some (TokType MyApplication)];
                 MyApplication := [Some (TokType EmailService)] ]} ∅ in
  world_of ((do _ <- register 0 EmailService Singleton;
             register 0 MyApplication Prototype) w0) w0.

(** [MyApplication] takes an [EmailService] and then an [Object]; a factory
    is provided for [EmailService], [MyApplication] is registered, and
    nothing is registered under [Object]. *)
Definition missing_dependency_world : World :=
  let w0 := initial_world
              {[ MyApplication := [Some (TokType EmailService); Some (TokType ObjectCtor)] ]}
              ∅ in
  world_of ((do _ <- provide 0 (TokType EmailService)
                       (Custom (fresh_factory EmailService)) Singleton;
             register 0 MyApplication Singleton) w0) w0.

(** The classes of a set [S] depend on one another in a circle when each is
    registered with [register], not yet constructed, and takes a class of
    [S] as its first parameter. *)
Definition circular (this : ContainerRef) (S : Constructor -> Prop) (w : World) : Prop :=
  forall c, S c ->
    exists scope next rest,
      registered_class this c scope w
      /\ effective_params c w = Some (TokType next) :: rest
      /\ S next.

(** A factory that allocates nothing and throws: [() => { throw e }]. *)
Definition failing_factory (e : Error) : Factory :=
  fun _ => ([], Raise e).

(** A singleton registration of a factory that throws. *)
Definition failing_world : World :=
  world_of (provide 0 (TokNamed "mail")
              (Custom (failing_factory (JsError "down"))) Singleton readme_world)
    readme_world.

(** The README's two classes with [EmailService] registered as a singleton
    and [MyApplication], which takes it, as a prototype. *)
Definition shared_dependency_world : World :=
  world_of ((do _ <- register 0 EmailService Singleton;
             register 0 MyApplication Prototype) readme_world) readme_world.

(** The other way round: [EmailService] as a prototype and [MyApplication]
    as a singleton. *)
Definition captive_dependency_world : World :=
  world_of ((do _ <- register 0 EmailService Prototype;
             register 0 MyApplication Singleton) readme_world) readme_world.

(** [MyApplication] takes two named tokens, each with a factory provided in
    prototype scope. *)
Definition two_factories_world : World :=
  let w0 := initial_world
              {[ MyApplication := [Some (TokNamed "mail"); Some (TokNamed "log")] ]} ∅ in
  world_of ((do _ <- provide 0 (TokNamed "log")
                       (Custom (constant_factory VUndefined)) Prototype;
             do _ <- provide 0 (TokNamed "mail")
                       (Custom (fresh_factory EmailService)) Prototype;
             register 0 MyApplication Singleton) w0) w0.

(** [resolvable n this tok w]: the token has a provider in the container
    and resolving it needs at most [n] nested resolutions: it has a factory
    that returns on every heap, or it is a class registered with [register]
    all of whose parameters are resolvable with less. *)
Fixpoint resolvable (n : nat) (this : ContainerRef) (tok : InjectionToken) (w : World)
    : Prop :=
  match n with
  | 0 => False
  | S n =>
      exists raw scope,
        dependencies (the_container this w) !! tok = Some (stored_for this tok raw scope)
        /\ match raw with
           | Custom f => forall h, exists objs v, f h = (objs, Return v)
           | CreateClosure this' ctor =>
               this' = this /\ tok = TokType ctor
               /\ forall t, Some t ∈ effective_params ctor w -> resolvable n this t w
           | SingletonClosure _ _ _ => False
           end
  end.
(** ** Sparse arrays and the parameter overrides *)

Lemma slot_lookup {A} (arr : SparseArray A) j :
  arr !! j = if decide (j < length arr) then Some (slot arr j) else None.
Proof.
  unfold slot. case_decide as Hj.
  - apply lookup_lt_is_Some in Hj as [x ->]. done.
  - apply lookup_ge_None. lia.
Qed.

Lemma sparse_array_eq {A} (a b : SparseArray A) :
  length a = length b -> (forall j, slot a j = slot b j) -> a = b.
Proof.
  intros Hlen Hslot. apply list_eq. intros j.
  rewrite !slot_lookup, Hlen, Hslot. done.
Qed.

Lemma length_array_write {A} (arr : SparseArray A) i x :
  length (array_write arr i x) =
  if (i <? 0)%Z then length arr else length arr `max` S (Z.to_nat i).
Proof.
  unfold array_write. destruct (Z.ltb_spec i 0); [done|].
  destruct (Nat.ltb_spec (Z.to_nat i) (length arr)).
  - rewrite length_insert. lia.
  - rewrite !length_app, length_replicate. simpl. lia.
Qed.

Lemma slot_array_write {A} (arr : SparseArray A) i x j :
  slot (array_write arr i x) j =
  if decide (i = Z.of_nat j) then Some x else slot arr j.
Proof.
  unfold array_write, slot.
  destruct (Z.ltb_spec i 0).
  { case_decide; [lia|done]. }
  destruct (Nat.ltb_spec (Z.to_nat i) (length arr)) as [Hlt|Hge].
  - case_decide as Hij.
    + assert (Z.to_nat i = j) as <- by lia.
      by rewrite list_lookup_insert_eq.
    + rewrite list_lookup_insert_ne by lia. done.
  - case_decide as Hij.
    + assert (j = length arr + (Z.to_nat i - length arr + 0)) as -> by lia.
      rewrite lookup_app_r by lia.
      replace (length arr + (Z.to_nat i - length arr + 0) - length arr)
        with (length (replicate (Z.to_nat i - length arr) (@None A)) + 0)
        by (rewrite length_replicate; lia).
      rewrite lookup_app_r by lia.
      rewrite Nat.add_comm, Nat.add_sub. done.
    + destruct (decide (j < length arr)) as [Hj|Hj].
      * by rewrite lookup_app_l.
      * rewrite (lookup_ge_None_2 arr j) by lia.
        rewrite lookup_app_r by lia.
        destruct (decide (j - length arr < Z.to_nat i - length arr)) as [Hj'|Hj'].
        -- rewrite lookup_app_l by (rewrite length_replicate; lia).
           rewrite lookup_replicate_2 by lia. done.
        -- rewrite lookup_app_r by (rewrite length_replicate; lia).
           rewrite length_replicate.
           destruct (j - length arr - (Z.to_nat i - length arr)) as [|k] eqn:Hk;
             [lia|done].
Qed.

Lemma foldl_array_write_length (l : list (Z * InjectionToken)) params :
  length (foldl (fun ps '(i, tok) => array_write ps i tok) params l) =
  length params `max` overrides_bound_list l.
Proof.
  revert params. induction l as [|[i tok] l IH]; intros params; simpl.
  - lia.
  - rewrite IH, length_array_write. destruct (i <? 0)%Z; lia.
Qed.

Lemma foldl_array_write_slot (l : list (Z * InjectionToken)) params j :
  NoDup l.*1 ->
  slot (foldl (fun ps '(i, tok) => array_write ps i tok) params l) j =
  match (list_to_map l : gmap Z InjectionToken) !! Z.of_nat j with
  | Some tok => Some tok
  | None => slot params j
  end.
Proof.
  revert params. induction l as [|[i tok] l IH]; intros params Hnd; simpl.
  - by rewrite lookup_empty.
  - apply NoDup_cons in Hnd as [Hi Hnd].
    rewrite IH by done. rewrite slot_array_write, lookup_insert.
    case_decide as Hij; [|done].
    subst i. by rewrite (not_elem_of_list_to_map_1 _ _ Hi).
Qed.

Lemma overrides_bound_list_elem (l : list (Z * InjectionToken)) i tok :
  (i, tok) ∈ l -> (0 <= i)%Z -> Z.to_nat i < overrides_bound_list l.
Proof.
  induction l as [|[k t] l IH]; intros Hin Hi; simpl.
  - by apply elem_of_nil in Hin.
  - apply elem_of_cons in Hin as [[= <- <-]|Hin].
    + destruct (Z.ltb_spec i 0); lia.
    + specialize (IH Hin Hi). destruct (k <? 0)%Z; lia.
Qed.

Lemma overrides_bound_list_inv (l : list (Z * InjectionToken)) n :
  n < overrides_bound_list l ->
  exists i tok, (i, tok) ∈ l /\ (0 <= i)%Z /\ n <= Z.to_nat i.
Proof.
  induction l as [|[k t] l IH]; simpl; intros Hn; [lia|].
  destruct (Z.ltb_spec k 0).
  - destruct (IH Hn) as (i & tok & ? & ? & ?).
    exists i, tok. split_and!; [by apply elem_of_cons; right|done..].
  - destruct (decide (n < overrides_bound_list l)) as [Hl|Hl].
    + destruct (IH Hl) as (i & tok & ? & ? & ?).
      exists i, tok. split_and!; [by apply elem_of_cons; right|done..].
    + exists k, t. split_and!; [by apply elem_of_cons; left|lia..].
Qed.

(** The parameter array after the overrides: position [j] holds the token
    bound to [j] if there is one, and what was declared there otherwise. *)
Lemma apply_overrides_slot injectionTokens params j :
  slot (apply_overrides injectionTokens params) j =
  match injectionTokens !! Z.of_nat j with
  | Some tok => Some tok
  | None => slot params j
  end.
Proof.
  unfold apply_overrides.
  rewrite foldl_array_write_slot by apply NoDup_fst_map_to_list.
  by rewrite list_to_map_to_list.
Qed.

Lemma apply_overrides_length injectionTokens params :
  length (apply_overrides injectionTokens params) =
  length params `max` overrides_bound injectionTokens.
Proof. apply foldl_array_write_length. Qed.

Lemma overrides_bound_lookup injectionTokens i tok :
  injectionTokens !! i = Some tok -> (0 <= i)%Z ->
  Z.to_nat i < overrides_bound injectionTokens.
Proof.
  intros Hi. apply overrides_bound_list_elem with tok.
  by apply elem_of_map_to_list.
Qed.

Lemma apply_overrides_lookup injectionTokens params i tok :
  injectionTokens !! i = Some tok -> (0 <= i)%Z ->
  apply_overrides injectionTokens params !! Z.to_nat i = Some (Some tok).
Proof.
  intros Hi Hpos. rewrite slot_lookup, apply_overrides_length.
  pose proof (overrides_bound_lookup _ _ _ Hi Hpos).
  rewrite decide_True by lia.
  rewrite apply_overrides_slot, Z2Nat.id, Hi by done. done.
Qed.

(** Applying the overrides a second time changes nothing: the array that
    [getParams] leaves in the metadata yields the same parameters again. *)
Lemma apply_overrides_idemp injectionTokens params :
  apply_overrides injectionTokens (apply_overrides injectionTokens params) =
  apply_overrides injectionTokens params.
Proof.
  apply sparse_array_eq.
  - rewrite !apply_overrides_length. lia.
  - intros j. rewrite !apply_overrides_slot.
    by destruct (injectionTokens !! Z.of_nat j).
Qed.

(** ** Reading the state after a write *)

Lemma the_container_set_container this' this c w :
  the_container this' (set_container this c w) =
  if decide (this' = this /\ allocated this w) then c else the_container this' w.
Proof.
  unfold the_container, set_container, allocated; simpl.
  case_decide as H.
  - destruct H as [-> H]. by apply list_lookup_total_insert_eq.
  - destruct (decide (this < length (containers w))).
    + apply list_lookup_total_insert_ne. naive_solver.
    + by rewrite list_insert_ge by lia.
Qed.

Lemma instances_instances_set this' this type v w :
  instances (the_container this' (instances_set this type v w)) =
  if decide (this' = this /\ allocated this w)
  then <[type := v]> (instances (the_container this w))
  else instances (the_container this' w).
Proof.
  unfold instances_set. rewrite the_container_set_container.
  by case_decide.
Qed.

Lemma dependencies_instances_set this' this type v w :
  dependencies (the_container this' (instances_set this type v w)) =
  dependencies (the_container this' w).
Proof.
  unfold instances_set. rewrite the_container_set_container.
  case_decide as H; [|done]. by destruct H as [-> _].
Qed.

Lemma dependencies_dependencies_set this' this type p w :
  dependencies (the_container this' (dependencies_set this type p w)) =
  if decide (this' = this /\ allocated this w)
  then <[type := p]> (dependencies (the_container this w))
  else dependencies (the_container this' w).
Proof.
  unfold dependencies_set. rewrite the_container_set_container.
  by case_decide.
Qed.

Lemma instances_dependencies_set this' this type p w :
  instances (the_container this' (dependencies_set this type p w)) =
  instances (the_container this' w).
Proof.
  unfold dependencies_set. rewrite the_container_set_container.
  case_decide as H; [|done]. by destruct H as [-> _].
Qed.

Lemma the_container_dangling this w :
  ~ allocated this w -> the_container this w = new_Container.
Proof.
  unfold allocated, the_container. intros H.
  rewrite list_lookup_total_alt, lookup_ge_None_2 by lia. done.
Qed.

Lemma registered_allocated this type w :
  registered this type w -> allocated this w.
Proof.
  intros [p Hp]. destruct (decide (allocated this w)) as [|Hd]; [done|].
  rewrite the_container_dangling in Hp by done. done.
Qed.

Lemma cached_allocated this type w :
  cached this type w -> allocated this w.
Proof.
  intros [p Hp]. destruct (decide (allocated this w)) as [|Hd]; [done|].
  rewrite the_container_dangling in Hp by done. done.
Qed.

(** ** [extends] is a preorder, and the elementary writes extend *)

#[global] Instance extends_preorder : PreOrder extends.
Proof.
  split.
  - intros w. by split.
  - intros w1 w2 w3 [] []. split; try (etrans; eauto; fail);
      intros ?; etrans; eauto.
Qed.

Lemma extends_note_invocation this type w :
  extends w (note_invocation this type w).
Proof. split; try done. by apply prefix_app_r. Qed.

Lemma extends_set_heap objs w :
  extends w (set_heap (heap w ++ objs) w).
Proof. split; try done. by apply prefix_app_r. Qed.

Lemma extends_instances_set this type v w :
  ~ cached this type w ->
  extends w (instances_set this type v w).
Proof.
  intros Hmiss. split; try done.
  - unfold instances_set, set_container; simpl. by rewrite length_insert.
  - intros this'. apply dependencies_instances_set.
  - intros this'. rewrite instances_instances_set.
    case_decide as H; [|done]. destruct H as [-> _].
    apply insert_subseteq. by apply eq_None_not_Some.
Qed.

Lemma effective_params_set_paramtypes ctor' ctor w :
  is_Some (design_paramtypes w !! ctor) ->
  effective_params ctor' (set_paramtypes ctor (effective_params ctor w) w) =
  effective_params ctor' w.
Proof.
  intros [ps Hps].
  unfold effective_params at 1 3, declared_params, overrides; simpl.
  destruct (decide (ctor' = ctor)) as [->|Hne].
  - rewrite lookup_insert_eq; simpl.
    unfold effective_params, overrides, declared_params.
    apply apply_overrides_idemp.
  - by rewrite lookup_insert_ne.
Qed.

Lemma extends_set_paramtypes ctor w :
  is_Some (design_paramtypes w !! ctor) ->
  extends w (set_paramtypes ctor (effective_params ctor w) w).
Proof.
  intros Hsome. split; try done.
  intros ctor'. by apply effective_params_set_paramtypes.
Qed.

(** ** The monad's outcomes, relationally *)

Section post.
Context (R : relation World) `{!PreOrder R}.

Lemma post_ret {A} (a : A) : post R (ret a).
Proof. intros w. simpl. done. Qed.

Lemma post_throw {A} e : post R (@throw A e).
Proof. intros w. simpl. done. Qed.

Lemma post_gets {A} (f : World -> A) : post R (gets f).
Proof. intros w. simpl. done. Qed.

Lemma post_modify f : (forall w, R w (f w)) -> post R (modify f).
Proof. intros H w. simpl. done. Qed.

Lemma post_bind {A B} (m : M A) (k : A -> M B) :
  post R m -> (forall a, post R (k a)) -> post R (bind m k).
Proof.
  intros Hm Hk w. unfold bind. specialize (Hm w).
  destruct (m w) as [a w1|e w1|]; [|done..].
  specialize (Hk a w1). destruct (k a w1); [etrans; eauto..|done].
Qed.

Lemma post_array_map {A B} (f : A -> M B) arr :
  (forall x, post R (f x)) -> post R (array_map f arr).
Proof.
  intros Hf. induction arr as [|[x|] arr IH]; simpl.
  - apply post_ret.
  - apply post_bind; [done|]. intros y.
    apply post_bind; [done|]. intros ys. apply post_ret.
  - apply post_bind; [done|]. intros ys. apply post_ret.
Qed.
End post.

Lemma post_Ok (R : relation World) {A} (m : M A) w a w' :
  post R m -> m w = Ok a w' -> R w w'.
Proof. intros Hm Hw. specialize (Hm w). by rewrite Hw in Hm. Qed.

Lemma post_Throw (R : relation World) {A} (m : M A) w e w' :
  post R m -> m w = Throw e w' -> R w w'.
Proof. intros Hm Hw. specialize (Hm w). by rewrite Hw in Hm. Qed.

Lemma getParams_eq ctor w :
  getParams ctor w =
  Ok (effective_params ctor w)
     (match design_paramtypes w !! ctor with
      | Some _ => set_paramtypes ctor (effective_params ctor w) w
      | None => w
      end).
Proof. done. Qed.

Lemma post_getParams ctor : post extends (getParams ctor).
Proof.
  intros w. rewrite getParams_eq.
  destruct (design_paramtypes w !! ctor) eqn:E; [|done].
  apply extends_set_paramtypes. by rewrite E.
Qed.

Lemma post_construct ctor args : post extends (construct ctor args).
Proof. intros w. apply extends_set_heap. Qed.

Lemma post_call_factory f : post extends (call_factory f).
Proof.
  intros w. unfold call_factory. destruct (f (heap w)) as [objs [v|e]];
    apply extends_set_heap.
Qed.

(** Every run of a provider leads to a later state of the same resolution. *)
Lemma post_invoke fuel p : post extends (invoke fuel p).
Proof.
  revert p. induction fuel as [|fuel IH]; intros p; [done|].
  destruct p as [f|this type|this type p]; simpl.
  - apply post_call_factory.
  - unfold create_with.
    apply (post_bind extends); [apply post_getParams|]. intros params.
    apply (post_bind extends); [|intros args; apply post_construct].
    apply (post_array_map extends). intros tok.
    unfold resolve_with. apply (post_bind extends); [apply (post_gets extends)|].
    intros [q|]; [|apply (post_throw extends)].
    apply (post_bind extends); [|done].
    destruct (is_raw q); [|apply (post_ret extends)].
    apply (post_modify extends). apply extends_note_invocation.
  - intros w. unfold singleton_closure_body, bind, gets; simpl.
    case_bool_decide as Hc; simpl; [reflexivity|].
    pose proof (IH p (note_invocation this type w)) as Hp.
    pose proof (extends_note_invocation this type w) as Hn.
    destruct (invoke fuel p (note_invocation this type w)) as [v w1|e w1|];
      simpl; [|by etrans|done].
    (* the entry was a miss: the write adds a key to the cache of [w] *)
    split; try (destruct Hn, Hp; simpl in *;
                unfold instances_set, set_container; simpl;
                first [by etrans | by rewrite length_insert; congruence]).
    + intros this'. rewrite dependencies_instances_set.
      destruct Hn, Hp; simpl in *. etrans; eauto.
    + intros this'. rewrite instances_instances_set.
      destruct Hn as [_ _ _ Hn _ _ _], Hp as [_ _ _ Hp _ _ _].
      case_decide as H; [|by etrans; eauto].
      destruct H as [-> _]. apply insert_subseteq_r.
      * apply eq_None_not_Some. done.
      * etrans; eauto.
    + intros ctor. destruct Hn, Hp. etrans; eauto.
Qed.

(** ** More fuel changes nothing once a run ends *)

Lemma refines_refl {A} (m : M A) : refines m m.
Proof. by intros w _. Qed.

Lemma refines_bind {A B} (m m' : M A) (k k' : A -> M B) :
  refines m m' -> (forall a, refines (k a) (k' a)) ->
  refines (bind m k) (bind m' k').
Proof.
  intros Hm Hk w. unfold bind. specialize (Hm w).
  destruct (m w) as [a w1|e w1|] eqn:E.
  - rewrite Hm by done. apply Hk.
  - by rewrite Hm.
  - done.
Qed.

Lemma refines_array_map {A B} (f f' : A -> M B) arr :
  (forall x, refines (f x) (f' x)) ->
  refines (array_map f arr) (array_map f' arr).
Proof.
  intros Hf. induction arr as [|[x|] arr IH]; simpl.
  - apply refines_refl.
  - apply refines_bind; [done|]. intros y.
    apply refines_bind; [done|]. intros ys. apply refines_refl.
  - apply refines_bind; [done|]. intros ys. apply refines_refl.
Qed.

Lemma refines_resolve_with (f f' : Provider -> M Value) this type :
  (forall p, refines (f p) (f' p)) ->
  refines (resolve_with f this type) (resolve_with f' this type).
Proof.
  intros Hf. unfold resolve_with.
  apply refines_bind; [apply refines_refl|]. intros [q|]; [|apply refines_refl].
  apply refines_bind; [apply refines_refl|done].
Qed.

Lemma refines_create_with (f f' : InjectionToken -> M Value) ctor :
  (forall x, refines (f x) (f' x)) ->
  refines (create_with f ctor) (create_with f' ctor).
Proof.
  intros Hf. unfold create_with.
  apply refines_bind; [apply refines_refl|]. intros params.
  apply refines_bind; [by apply refines_array_map|]. intros args.
  apply refines_refl.
Qed.

Lemma refines_singleton_closure_body (f f' : Provider -> M Value) this type p :
  refines (f p) (f' p) ->
  refines (singleton_closure_body f this type p)
          (singleton_closure_body f' this type p).
Proof.
  intros Hf. unfold singleton_closure_body.
  apply refines_bind; [apply refines_refl|]. intros has.
  apply refines_bind; [|intros; apply refines_refl].
  destruct (negb has); [|apply refines_refl].
  apply refines_bind; [apply refines_refl|]. intros _.
  apply refines_bind; [done|]. intros v. apply refines_refl.
Qed.

Lemma refines_invoke_S fuel p : refines (invoke fuel p) (invoke (S fuel) p).
Proof.
  revert p. induction fuel as [|fuel IH]; intros p; [by intros w|].
  destruct p as [f|this type|this type p].
  - apply refines_refl.
  - apply refines_create_with. intros tok. by apply refines_resolve_with.
  - by apply refines_singleton_closure_body.
Qed.

Lemma invoke_fuel_mono fuel fuel' p w :
  fuel <= fuel' -> invoke fuel p w <> OutOfFuel ->
  invoke fuel' p w = invoke fuel p w.
Proof.
  induction 1 as [|fuel' _ IH]; intros Hend; [done|].
  rewrite <- IH by done. apply refines_invoke_S. by rewrite IH.
Qed.

Lemma resolve_fuel_mono fuel fuel' this type w :
  fuel <= fuel' -> resolve fuel this type w <> OutOfFuel ->
  resolve fuel' this type w = resolve fuel this type w.
Proof.
  intros Hle. revert w. apply refines_resolve_with.
  intros p w. by apply invoke_fuel_mono.
Qed.

(** ** [array_map], relationally *)

Lemma array_map_Ok {A B} (f : A -> M B) arr w ys w' :
  array_map f arr w = Ok ys w' <-> mapped_in_order f arr w ys w'.
Proof.
  split.
  - revert w ys. induction arr as [|[x|] arr IH]; intros w ys; simpl.
    + intros [= <- <-]. constructor.
    + unfold bind at 1. destruct (f x w) as [y w1| |] eqn:Ef; [|done..].
      unfold bind at 1. destruct (array_map f arr w1) as [zs w2| |] eqn:Em; [|done..].
      intros [= <- <-]. econstructor; eauto.
    + unfold bind at 1. destruct (array_map f arr w) as [zs w2| |] eqn:Em; [|done..].
      intros [= <- <-]. econstructor; eauto.
  - induction 1 as [w|rest w ys w' _ IH|x rest w y w1 ys w' Hf _ IH]; simpl.
    + done.
    + unfold bind. by rewrite IH.
    + unfold bind. by rewrite Hf, IH.
Qed.

Lemma mapped_in_order_length {A B} (f : A -> M B) arr w ys w' :
  mapped_in_order f arr w ys w' -> length ys = length arr.
Proof. induction 1; simpl; congruence. Qed.

Lemma array_map_app {A B} (f : A -> M B) arr1 arr2 :
  forall w,
  array_map f (arr1 ++ arr2) w =
  (do ys1 <- array_map f arr1;
   do ys2 <- array_map f arr2;
   ret (ys1 ++ ys2)) w.
Proof.
  induction arr1 as [|[x|] arr1 IH]; intros w; simpl.
  - unfold bind, ret. simpl. by destruct (array_map f arr2 w).
  - unfold bind. destruct (f x w) as [y w1| |]; [|done..].
    rewrite IH. unfold bind, ret.
    destruct (array_map f arr1 w1) as [ys1 w2| |]; [|done..].
    by destruct (array_map f arr2 w2).
  - unfold bind. rewrite IH. unfold bind, ret.
    destruct (array_map f arr1 w) as [ys1 w2| |]; [|done..].
    by destruct (array_map f arr2 w2).
Qed.

(** ** The interface calls, one by one *)

Lemma provide_eq this type p scope w :
  provide this type p scope w =
  if decide (registered this type w) then Throw (provide_error type) w
  else Ok () (dependencies_set this type (stored_for this type p scope) w).
Proof.
  unfold provide, bind, gets, registered.
  case_bool_decide; case_decide; try done. by destruct scope.
Qed.

Lemma resolve_eq fuel this type w :
  resolve fuel this type w =
  match dependencies (the_container this w) !! type with
  | None => Throw (resolve_error type) w
  | Some p =>
      invoke fuel p (if is_raw p then note_invocation this type w else w)
  end.
Proof.
  unfold resolve, resolve_with, bind, gets.
  destruct (dependencies (the_container this w) !! type) as [p|]; [|done].
  by destruct (is_raw p).
Qed.

Lemma invoke_singleton_eq fuel this type p w :
  invoke (S fuel) (SingletonClosure this type p) w =
  if decide (cached this type w)
  then Ok (default VUndefined (instances (the_container this w) !! type)) w
  else
    match invoke fuel p (note_invocation this type w) with
    | Ok v w' =>
        let w'' := instances_set this type v w' in
        Ok (default VUndefined (instances (the_container this w'') !! type)) w''
    | Throw e w' => Throw e w'
    | OutOfFuel => OutOfFuel
    end.
Proof.
  simpl. unfold singleton_closure_body, bind, gets, modify, cached.
  case_bool_decide; case_decide; try done; simpl.
  by destruct (invoke fuel p (note_invocation this type w)).
Qed.

Lemma create_eq fuel this ctor w :
  create fuel this ctor w =
  match getParams ctor w with
  | Ok params w1 =>
      match array_map (resolve fuel this) params w1 with
      | Ok args w2 => construct ctor (spread args) w2
      | Throw e w2 => Throw e w2
      | OutOfFuel => OutOfFuel
      end
  | Throw e w1 => Throw e w1
  | OutOfFuel => OutOfFuel
  end.
Proof. done. Qed.

Lemma invoke_create_eq fuel this ctor w :
  invoke (S fuel) (CreateClosure this ctor) w = create fuel this ctor w.
Proof. done. Qed.

Lemma post_resolve fuel this type : post extends (resolve fuel this type).
Proof.
  intros w. rewrite resolve_eq.
  destruct (dependencies (the_container this w) !! type) as [p|]; [|done].
  destruct (is_raw p); [|apply post_invoke].
  pose proof (post_invoke fuel p (note_invocation this type w)) as H.
  pose proof (extends_note_invocation this type w) as Hn.
  destruct (invoke fuel p _); [by etrans..|done].
Qed.

Lemma the_container_newContainer this w r w' :
  newContainer w = Ok r w' ->
  r = length (containers w)
  /\ the_container r w' = new_Container
  /\ (allocated this w -> the_container this w' = the_container this w).
Proof.
  intros [= <- <-]. unfold the_container, allocated; simpl. split_and!.
  - done.
  - rewrite list_lookup_total_alt, lookup_app_r, Nat.sub_diag by done. done.
  - intros H. by rewrite !list_lookup_total_alt, lookup_app_l.
Qed.

(** What is registered stays registered, and what is cached stays cached,
    through every call. *)
Lemma step_dependencies w w' this type p :
  step w w' ->
  dependencies (the_container this w) !! type = Some p ->
  dependencies (the_container this w') !! type = Some p.
Proof.
  intros (c & Halloc & Hrun) Hp.
  assert (allocated this w) as Hthis by (eapply registered_allocated; by eexists).
  destruct c as [this' type' f scope|this' ctor scope|fuel this' type'|];
    unfold run_call in Hrun.
  - rewrite provide_eq in Hrun. case_decide as Hreg; simplify_eq/=; [done|].
    rewrite dependencies_dependencies_set. case_decide as H; [|done].
    destruct H as [-> _]. rewrite lookup_insert_ne; [done|].
    intros ->. apply Hreg. by eexists.
  - unfold register in Hrun. rewrite provide_eq in Hrun.
    case_decide as Hreg; simplify_eq/=; [done|].
    rewrite dependencies_dependencies_set. case_decide as H; [|done].
    destruct H as [-> _]. rewrite lookup_insert_ne; [done|].
    intros <-. apply Hreg. by eexists.
  - unfold bind, ret in Hrun.
    pose proof (post_resolve fuel this' type' w) as Hext.
    destruct (resolve fuel this' type' w); simplify_eq/=;
      by rewrite (ext_dependencies _ _ Hext).
  - unfold bind, ret in Hrun.
    destruct (newContainer w) as [r w1| |] eqn:E; [|done..].
    apply (the_container_newContainer this) in E as (_ & _ & E).
    injection Hrun as <-. by rewrite E.
Qed.

Lemma steps_dependencies w w' this type p :
  steps w w' ->
  dependencies (the_container this w) !! type = Some p ->
  dependencies (the_container this w') !! type = Some p.
Proof. induction 1; eauto using step_dependencies. Qed.

Lemma steps_registered w w' this type :
  steps w w' -> registered this type w -> registered this type w'.
Proof. intros Hs [p Hp]. exists p. eauto using steps_dependencies. Qed.

Lemma create_fuel_mono fuel fuel' this ctor w :
  fuel <= fuel' -> create fuel this ctor w <> OutOfFuel ->
  create fuel' this ctor w = create fuel this ctor w.
Proof.
  intros Hle. revert w. apply refines_create_with.
  intros tok w. by apply resolve_fuel_mono.
Qed.

Lemma post_array_map_resolve fuel this params :
  post extends (array_map (resolve fuel this) params).
Proof. apply (post_array_map extends). intros tok. apply post_resolve. Qed.

(** [create] stops at the first parameter whose resolution throws. *)
Lemma create_param_throws fuel this ctor w pre type post w1 args w2 e w3 :
  getParams ctor w = Ok (pre ++ Some type :: post) w1 ->
  array_map (resolve fuel this) pre w1 = Ok args w2 ->
  resolve fuel this type w2 = Throw e w3 ->
  create fuel this ctor w = Throw e w3.
Proof.
  intros Hparams Hpre Htype. rewrite create_eq, Hparams, array_map_app.
  unfold bind at 1. rewrite Hpre. simpl. unfold bind at 1 2. by rewrite Htype.
Qed.

(** Resolving such a class runs [create]; an exception of [create] is the
    exception of [resolve]. *)
Lemma resolve_registered_class_throws fuel fuel' this ctor scope w e w' :
  registered_class this ctor scope w ->
  create fuel this ctor (note_invocation this (TokType ctor) w) = Throw e w' ->
  fuel + 2 <= fuel' ->
  resolve fuel' this (TokType ctor) w = Throw e w'.
Proof.
  intros [Hdep Hmiss] Hcreate Hfuel.
  rewrite resolve_eq, Hdep.
  destruct fuel' as [|[|fuel']]; [lia..|].
  destruct scope; simpl stored_for; cbn [is_raw singletonProvider].
  - rewrite invoke_singleton_eq, decide_False by done.
    rewrite invoke_create_eq, (create_fuel_mono fuel) by (lia || by rewrite Hcreate).
    by rewrite Hcreate.
  - rewrite invoke_create_eq, (create_fuel_mono fuel) by (lia || by rewrite Hcreate).
    done.
Qed.


Lemma length_spread args : length (spread args) = length args.
Proof. apply length_fmap. Qed.

(** What a construction that returns has done. *)
Lemma create_Ok fuel this ctor w v w' :
  create fuel this ctor w = Ok v w' ->
  exists w1 args w2,
    getParams ctor w = Ok (effective_params ctor w) w1
    /\ mapped_in_order (resolve fuel this) (effective_params ctor w) w1 args w2
    /\ v = VObject (length (heap w2))
    /\ w' = set_heap (heap w2 ++ [{| obj_class := ctor; obj_args := spread args |}]) w2.
Proof.
  rewrite create_eq, getParams_eq.
  destruct (array_map _ _ _) as [args w2| |] eqn:Hmap; [|done..].
  intros [= <- <-]. eexists _, args, w2. split_and!; try done.
  by apply array_map_Ok.
Qed.

Lemma create_Ok_object fuel this ctor w v w' :
  create fuel this ctor w = Ok v w' ->
  exists b o,
    v = VObject b /\ heap w' !! b = Some o /\ length (heap w) <= b
    /\ obj_class o = ctor
    /\ length (obj_args o) = length (effective_params ctor w).
Proof.
  intros Hc. pose proof Hc as (w1 & args & w2 & Hp & Hmap & -> & ->)%create_Ok.
  eexists _, _. split; [done|]. split.
  { simpl. rewrite lookup_app_r, Nat.sub_diag by done. done. }
  split_and!; [|done|].
  - apply (post_Ok extends _ _ _ _ (post_getParams ctor)) in Hp.
    apply array_map_Ok in Hmap.
    apply (post_Ok extends _ _ _ _ (post_array_map_resolve fuel this _)) in Hmap.
    apply ext_heap, prefix_length in Hp. apply ext_heap, prefix_length in Hmap. lia.
  - simpl. rewrite length_spread. by eapply mapped_in_order_length.
Qed.

Lemma overrides_bound_lt injectionTokens j :
  j < overrides_bound injectionTokens <->
  exists i tok, injectionTokens !! i = Some tok /\ (0 <= i)%Z /\ j <= Z.to_nat i.
Proof.
  split.
  - intros (i & tok & Hin & ? & ?)%overrides_bound_list_inv.
    exists i, tok. by rewrite <- elem_of_map_to_list.
  - intros (i & tok & Hi & ? & ?).
    pose proof (overrides_bound_lookup _ _ _ Hi). lia.
Qed.

Lemma overrides_bound_delete_negative injectionTokens i :
  (i < 0)%Z ->
  overrides_bound (delete i injectionTokens) = overrides_bound injectionTokens.
Proof.
  intros Hi.
  assert (forall j, j < overrides_bound (delete i injectionTokens)
                    <-> j < overrides_bound injectionTokens) as H.
  { intros j. rewrite !overrides_bound_lt.
    split; intros (k & tok & Hk & ? & ?); exists k, tok; split_and!; try done.
    - by apply lookup_delete_Some in Hk as [_ ?].
    - apply lookup_delete_Some. split; [lia|done]. }
  destruct (overrides_bound (delete i injectionTokens)) as [|n] eqn:E1,
           (overrides_bound injectionTokens) as [|m] eqn:E2; try done.
  - specialize (H 0). lia.
  - specialize (H 0). lia.
  - pose proof (H n). pose proof (H m). lia.
Qed.

Lemma apply_overrides_delete_negative injectionTokens params i :
  (i < 0)%Z ->
  apply_overrides (delete i injectionTokens) params =
  apply_overrides injectionTokens params.
Proof.
  intros Hi. apply sparse_array_eq.
  - by rewrite !apply_overrides_length, overrides_bound_delete_negative.
  - intros j. rewrite !apply_overrides_slot, lookup_delete_ne by lia. done.
Qed.


(** ** Well-formed states stay well-formed *)

Lemma inv_array_map (I : World -> Prop) {A B} (f : A -> M B) arr :
  (forall x, inv I (f x)) -> inv I (array_map f arr).
Proof.
  intros Hf. induction arr as [|[x|] arr IH]; intros w Hw; simpl.
  - done.
  - unfold bind. specialize (Hf x w Hw).
    destruct (f x w) as [y w1| |]; [|done..].
    specialize (IH w1 Hf). by destruct (array_map f arr w1).
  - unfold bind. specialize (IH w Hw). by destruct (array_map f arr w).
Qed.

Lemma wf_empty_containers w :
  Forall (fun c => c = new_Container) (containers w) -> invocations w = [] -> wf w.
Proof.
  intros Hall Hinv.
  assert (forall this, the_container this w = new_Container) as Hempty.
  { intros this. destruct (decide (allocated this w)) as [Ha|Ha].
    - apply lookup_lt_is_Some in Ha as [c Hc].
      unfold the_container. rewrite (list_lookup_total_correct _ _ _ Hc).
      by eapply (Forall_lookup_1 _ _ _ _ Hall).
    - by apply the_container_dangling. }
  split.
  - intros this type p. by rewrite Hempty.
  - intros this type [v Hv]. by rewrite Hempty in Hv.
  - intros this type Hin. rewrite Hinv in Hin. by apply elem_of_nil in Hin.
Qed.

Lemma wf_initial_world paramtypes tokens : wf (initial_world paramtypes tokens).
Proof. apply wf_empty_containers; [|done]. by repeat constructor. Qed.

Lemma wf_two_container_world : wf two_container_world.
Proof. apply wf_empty_containers; [|done]. by repeat constructor. Qed.

Lemma wf_set_heap h w : wf w -> wf (set_heap h w).
Proof. intros [H1 H2 H3]. by split. Qed.

Lemma wf_set_paramtypes ctor params w : wf w -> wf (set_paramtypes ctor params w).
Proof. intros [H1 H2 H3]. by split. Qed.

Lemma wf_note_invocation this type w :
  wf w -> registered this type w -> wf (note_invocation this type w).
Proof.
  intros [H1 H2 H3] Hreg. split; [done|..].
  - intros this' type' Hc. destruct (H2 this' type' Hc) as [? ?].
    split; [done|]. simpl. apply elem_of_app. by left.
  - intros this' type' [Hin|Hin]%elem_of_app; [by apply H3|].
    apply list_elem_of_singleton in Hin as [= -> ->]. done.
Qed.

Lemma wf_instances_set this type raw v w :
  wf w ->
  dependencies (the_container this w) !! type = Some (SingletonClosure this type raw) ->
  (this, type) ∈ invocations w ->
  wf (instances_set this type v w).
Proof.
  intros [H1 H2 H3] Hdep Hinv. split.
  - intros this' type' p. rewrite dependencies_instances_set. apply H1.
  - intros this' type'. unfold cached.
    rewrite instances_instances_set, dependencies_instances_set.
    case_decide as Hd; [|apply H2]. destruct Hd as [-> _].
    destruct (decide (type' = type)) as [->|Hne].
    + intros _. split; [by eexists|done].
    + rewrite lookup_insert_ne by done. apply H2.
  - intros this' type' Hin. unfold registered.
    rewrite dependencies_instances_set. by apply H3.
Qed.

Lemma wf_dependencies_set this type p w :
  wf w -> stored_provider this type p -> ~ registered this type w ->
  wf (dependencies_set this type p w).
Proof.
  intros [H1 H2 H3] Hp Hfresh. split.
  - intros this' type' q. rewrite dependencies_dependencies_set.
    case_decide as Hd; [|apply H1]. destruct Hd as [-> _].
    destruct (decide (type' = type)) as [->|Hne].
    + rewrite lookup_insert_eq. by intros [= <-].
    + rewrite lookup_insert_ne by done. apply H1.
  - intros this' type'. unfold cached.
    rewrite instances_dependencies_set, dependencies_dependencies_set.
    intros Hc. destruct (H2 _ _ Hc) as [[raw Hraw] Hin]. split; [|done].
    case_decide as Hd; [|by eexists]. destruct Hd as [-> _].
    rewrite lookup_insert_ne; [by eexists|].
    intros <-. apply Hfresh. by eexists.
  - intros this' type' Hin. unfold registered.
    rewrite dependencies_dependencies_set.
    case_decide as Hd; [|by apply H3]. destruct Hd as [-> _].
    destruct (decide (type' = type)) as [->|Hne].
    + by rewrite lookup_insert_eq.
    + rewrite lookup_insert_ne by done. by apply H3.
Qed.

Lemma inv_getParams ctor : inv wf (getParams ctor).
Proof.
  intros w Hw. rewrite getParams_eq.
  destruct (design_paramtypes w !! ctor); [by apply wf_set_paramtypes|done].
Qed.

Lemma wf_invoke fuel :
  forall p w, wf w -> placed p w ->
    match invoke fuel p w with
    | Ok _ w' | Throw _ w' => wf w'
    | OutOfFuel => True
    end.
Proof.
  induction fuel as [|fuel IH]; intros p w Hw Hp; [done|].
  assert (forall this tok, inv wf (resolve fuel this tok)) as Hres.
  { intros this tok w0 Hw0. rewrite resolve_eq.
    destruct (dependencies (the_container this w0) !! tok) as [q|] eqn:Hq; [|done].
    pose proof (wf_stored _ Hw0 _ _ _ Hq) as Hst.
    inversion Hst as [q' Hraw Heq|q' Hraw Heq]; subst.
    - replace (is_raw q) with true by (by destruct Hraw).
      apply IH; [|by destruct Hraw].
      apply wf_note_invocation; [done|by eexists].
    - by apply IH. }
  destruct p as [f|this ctor|this type raw].
  - simpl. unfold call_factory. destruct (f (heap w)) as [objs [v|e]];
      by apply wf_set_heap.
  - rewrite invoke_create_eq, create_eq.
    pose proof (inv_getParams ctor w Hw) as Hg.
    destruct (getParams ctor w) as [params w1| |]; [|done..].
    pose proof (inv_array_map wf (resolve fuel this) params (Hres this) w1 Hg) as Hm.
    destruct (array_map _ _ _) as [args w2| |]; [|done..].
    by apply wf_set_heap.
  - rewrite invoke_singleton_eq. case_decide as Hc; [done|].
    simpl in Hp.
    assert (wf (note_invocation this type w)) as Hn
      by (apply wf_note_invocation; [done|by eexists]).
    pose proof (wf_stored _ Hw _ _ _ Hp) as Hst.
    inversion Hst as [q Hraw Heq|q Hraw Heq]; subst; [by inversion Hraw|].
    assert (placed raw (note_invocation this type w)) as Hq by (by destruct Hraw).
    pose proof (IH raw _ Hn Hq) as Hw1.
    pose proof (post_invoke fuel raw (note_invocation this type w)) as Hext.
    destruct (invoke fuel raw _) as [v w1| |]; [|done..].
    simpl. apply wf_instances_set with raw; [done|..].
    + by rewrite (ext_dependencies _ _ Hext).
    + eapply elem_of_prefix; [|exact (ext_invocations _ _ Hext)]. simpl. set_solver.
Qed.

Lemma inv_resolve fuel this type : inv wf (resolve fuel this type).
Proof.
  intros w Hw. rewrite resolve_eq.
  destruct (dependencies (the_container this w) !! type) as [q|] eqn:Hq; [|done].
  pose proof (wf_stored _ Hw _ _ _ Hq) as Hst.
  inversion Hst as [q' Hraw Heq|q' Hraw Heq]; subst.
  - replace (is_raw q) with true by (by destruct Hraw).
    apply wf_invoke; [|by destruct Hraw].
    apply wf_note_invocation; [done|by eexists].
  - by apply wf_invoke.
Qed.

Lemma the_container_newContainer_all this w r w' :
  newContainer w = Ok r w' -> the_container this w' = the_container this w.
Proof.
  intros Hnew. destruct (decide (allocated this w)) as [Ha|Ha].
  - by apply (the_container_newContainer this) in Hnew as (_ & _ & ->).
  - rewrite (the_container_dangling this w) by done.
    destruct (decide (this = length (containers w))) as [->|Hne].
    + by apply (the_container_newContainer 0) in Hnew as (-> & ? & _).
    + apply the_container_dangling. injection Hnew as <- <-.
      unfold allocated in *; simpl. rewrite length_app; simpl. lia.
Qed.

Lemma wf_newContainer w r w' : wf w -> newContainer w = Ok r w' -> wf w'.
Proof.
  intros Hw Hnew.
  pose proof (fun this => the_container_newContainer_all this _ _ _ Hnew) as Hsame.
  assert (invocations w' = invocations w) as Hi by (by injection Hnew as <- <-).
  destruct Hw as [H1 H2 H3]. split.
  - intros this type p. rewrite Hsame. apply H1.
  - intros this type. unfold cached. rewrite Hsame, Hi. apply H2.
  - intros this type. unfold registered. rewrite Hsame, Hi. apply H3.
Qed.

Lemma step_wf w w' : wf w -> step w w' -> wf w'.
Proof.
  intros Hw (c & Halloc & Hrun).
  destruct c as [this type f scope|this ctor scope|fuel this type|];
    unfold run_call in Hrun.
  - rewrite provide_eq in Hrun. case_decide as Hreg; simplify_eq/=; [done|].
    apply wf_dependencies_set; [done| |done].
    destruct scope; constructor; constructor.
  - unfold register in Hrun. rewrite provide_eq in Hrun.
    case_decide as Hreg; simplify_eq/=; [done|].
    apply wf_dependencies_set; [done| |done].
    destruct scope; constructor; constructor.
  - unfold bind, ret in Hrun. pose proof (inv_resolve fuel this type w Hw) as H.
    destruct (resolve fuel this type w); by simplify_eq/=.
  - unfold bind, ret in Hrun.
    destruct (newContainer w) as [r w1| |] eqn:E; [|done..].
    injection Hrun as <-. by eapply wf_newContainer.
Qed.

Lemma steps_wf w w' : wf w -> steps w w' -> wf w'.
Proof. intros Hw Hs. induction Hs; eauto using step_wf. Qed.

(** ** A resolved singleton stays as it is *)

Lemma invocation_count_note this type this' type' w :
  invocation_count this type (note_invocation this' type' w) =
  invocation_count this type w + (if decide ((this', type') = (this, type)) then 1 else 0).
Proof.
  unfold invocation_count; simpl. rewrite filter_app, length_app. f_equal.
  rewrite filter_cons, filter_nil. by case_decide.
Qed.

Lemma pinned_note_invocation this type raw v n this' type' w :
  pinned this type raw v n w -> (this', type') <> (this, type) ->
  pinned this type raw v n (note_invocation this' type' w).
Proof.
  intros (Hd & Hi & Hn) Hne. split_and!; [done..|].
  rewrite invocation_count_note, decide_False by done. lia.
Qed.

Lemma pinned_instances_set this type raw v n this' type' v' w :
  pinned this type raw v n w -> (this', type') <> (this, type) ->
  pinned this type raw v n (instances_set this' type' v' w).
Proof.
  intros (Hd & Hi & Hn) Hne. split_and!; [..|done].
  - by rewrite dependencies_instances_set.
  - rewrite instances_instances_set. case_decide as H; [|done].
    destruct H as [<- _]. rewrite lookup_insert_ne; [done|congruence].
Qed.

Lemma pinned_dependencies_set this type raw v n this' type' p w :
  pinned this type raw v n w -> (this', type') <> (this, type) ->
  pinned this type raw v n (dependencies_set this' type' p w).
Proof.
  intros (Hd & Hi & Hn) Hne. split_and!; [..|done].
  - rewrite dependencies_dependencies_set. case_decide as H; [|done].
    destruct H as [<- _]. rewrite lookup_insert_ne; [done|congruence].
  - by rewrite instances_dependencies_set.
Qed.

Lemma pinned_invoke this type raw v n fuel :
  forall p, inv (pinned this type raw v n) (invoke fuel p).
Proof.
  induction fuel as [|fuel IH]; intros p w Hw; [done|].
  assert (forall this' tok, inv (pinned this type raw v n) (resolve fuel this' tok))
    as Hres.
  { intros this' tok w0 Hw0. rewrite resolve_eq.
    destruct (dependencies (the_container this' w0) !! tok) as [q|] eqn:Hq; [|done].
    apply IH. destruct (is_raw q) eqn:Hraw; [|done].
    apply pinned_note_invocation; [done|].
    intros [= -> ->]. destruct Hw0 as (Hd & _). rewrite Hd in Hq. by simplify_eq. }
  destruct p as [f|this' ctor|this' type' raw'].
  - simpl. unfold call_factory. by destruct (f (heap w)) as [objs [v'|e]].
  - rewrite invoke_create_eq, create_eq, getParams_eq.
    match goal with |- context [array_map _ _ ?w1] =>
      assert (pinned this type raw v n w1) as Hw1
        by (by destruct (design_paramtypes w !! ctor)) end.
    pose proof (inv_array_map _ (resolve fuel this') (effective_params ctor w)
                  (Hres this') _ Hw1) as Hm.
    by destruct (array_map _ _ _) as [args w2| |].
  - rewrite invoke_singleton_eq. case_decide as Hc; [done|].
    assert ((this', type') <> (this, type)) as Hne.
    { intros [= -> ->]. apply Hc. destruct Hw as (_ & Hi & _). by eexists. }
    pose proof (IH raw' _ (pinned_note_invocation _ _ _ _ _ _ _ _ Hw Hne)) as H1.
    destruct (invoke fuel raw' _) as [v' w1| |]; [|done..].
    simpl. by apply pinned_instances_set.
Qed.

Lemma pinned_resolve this type raw v n fuel this' type' :
  inv (pinned this type raw v n) (resolve fuel this' type').
Proof.
  intros w Hw. rewrite resolve_eq.
  destruct (dependencies (the_container this' w) !! type') as [q|] eqn:Hq; [|done].
  apply pinned_invoke. destruct (is_raw q) eqn:Hraw; [|done].
  apply pinned_note_invocation; [done|].
  intros [= -> ->]. destruct Hw as (Hd & _). rewrite Hd in Hq. by simplify_eq.
Qed.

Lemma step_pinned this type raw v n w w' :
  pinned this type raw v n w -> step w w' -> pinned this type raw v n w'.
Proof.
  intros Hw (c & Halloc & Hrun).
  assert (registered this type w) as Hreg by (destruct Hw as (Hd & _); by eexists).
  destruct c as [this' type' f scope|this' ctor scope|fuel this' type'|];
    unfold run_call in Hrun.
  - rewrite provide_eq in Hrun. case_decide as Hr; simplify_eq/=; [done|].
    apply pinned_dependencies_set; [done|]. by intros [= -> ->].
  - unfold register in Hrun. rewrite provide_eq in Hrun.
    case_decide as Hr; simplify_eq/=; [done|].
    apply pinned_dependencies_set; [done|]. by intros [= -> <-].
  - unfold bind, ret in Hrun.
    pose proof (pinned_resolve this type raw v n fuel this' type' w Hw) as H.
    destruct (resolve fuel this' type' w); by simplify_eq/=.
  - unfold bind, ret in Hrun.
    destruct (newContainer w) as [r w1| |] eqn:E; [|done..].
    injection Hrun as <-.
    assert (invocations w1 = invocations w) as Hinv by (by injection E as <- <-).
    apply (the_container_newContainer this) in E as (_ & _ & E).
    unfold pinned, invocation_count in *.
    rewrite E, Hinv by (by eapply registered_allocated). done.
Qed.

Lemma steps_pinned this type raw v n w w' :
  pinned this type raw v n w -> steps w w' -> pinned this type raw v n w'.
Proof. intros Hw Hs. induction Hs; eauto using step_pinned. Qed.

(** Resolving a resolved singleton returns the cached instance, calls no
    provider and leaves the state as it is. *)
Lemma resolve_pinned this type raw v n fuel w :
  pinned this type raw v n w ->
  resolve (S fuel) this type w = Ok v w.
Proof.
  intros (Hd & Hi & _). rewrite resolve_eq, Hd. cbn [is_raw].
  rewrite invoke_singleton_eq, decide_True by (by eexists). by rewrite Hi.
Qed.

(** ** Running [getParams], [create] and a singleton's first resolution *)

Lemma getParams_after ctor w :
  getParams ctor w = Ok (effective_params ctor w) (after_getParams ctor w).
Proof. done. Qed.

Lemma the_container_after_getParams this ctor w :
  the_container this (after_getParams ctor w) = the_container this w.
Proof. unfold after_getParams. by destruct (design_paramtypes w !! ctor). Qed.

Lemma heap_after_getParams ctor w : heap (after_getParams ctor w) = heap w.
Proof. unfold after_getParams. by destruct (design_paramtypes w !! ctor). Qed.

Lemma invocations_after_getParams ctor w :
  invocations (after_getParams ctor w) = invocations w.
Proof. unfold after_getParams. by destruct (design_paramtypes w !! ctor). Qed.

Lemma containers_after_getParams ctor w :
  containers (after_getParams ctor w) = containers w.
Proof. unfold after_getParams. by destruct (design_paramtypes w !! ctor). Qed.

Lemma effective_params_after_getParams ctor' ctor w :
  effective_params ctor' (after_getParams ctor w) = effective_params ctor' w.
Proof.
  unfold after_getParams. destruct (design_paramtypes w !! ctor) eqn:E; [|done].
  apply effective_params_set_paramtypes. by rewrite E.
Qed.

Lemma extends_after_getParams ctor w : extends w (after_getParams ctor w).
Proof. eapply (post_Ok extends), getParams_after. apply post_getParams. Qed.

Lemma apply_overrides_empty params : apply_overrides ∅ params = params.
Proof. unfold apply_overrides. by rewrite map_to_list_empty. Qed.

Lemma effective_params_no_overrides ctor w :
  overrides ctor w = ∅ -> effective_params ctor w = declared_params ctor w.
Proof. unfold effective_params. intros ->. apply apply_overrides_empty. Qed.

Lemma allocated_extends this w w' : extends w w' -> allocated this w -> allocated this w'.
Proof. intros Hext. unfold allocated. by rewrite (ext_containers _ _ Hext). Qed.

Lemma instances_set_lookup this type v w :
  allocated this w ->
  instances (the_container this (instances_set this type v w)) !! type = Some v.
Proof.
  intros Ha. rewrite instances_instances_set, decide_True by done.
  apply lookup_insert_eq.
Qed.

(** The first resolution of a singleton: the memoizing closure calls the raw
    provider, stores what it returned and returns it. *)
Lemma resolve_singleton_miss fuel this type raw w :
  dependencies (the_container this w) !! type = Some (SingletonClosure this type raw) ->
  ~ cached this type w ->
  resolve (S fuel) this type w =
  match invoke fuel raw (note_invocation this type w) with
  | Ok v w' => Ok v (instances_set this type v w')
  | Throw e w' => Throw e w'
  | OutOfFuel => OutOfFuel
  end.
Proof.
  intros Hd Hmiss. rewrite resolve_eq, Hd. cbn [is_raw].
  rewrite invoke_singleton_eq, decide_False by done.
  pose proof (post_invoke fuel raw (note_invocation this type w)) as Hext.
  destruct (invoke fuel raw _) as [v w'| |]; [|done..]. simpl.
  rewrite instances_set_lookup; [done|].
  eapply allocated_extends; [exact Hext|].
  eapply registered_allocated. by eexists.
Qed.

(** Resolving a prototype calls the raw provider, and that is all. *)
Lemma resolve_prototype fuel this type raw w :
  dependencies (the_container this w) !! type = Some raw ->
  is_raw raw = true ->
  resolve fuel this type w = invoke fuel raw (note_invocation this type w).
Proof. intros Hd Hraw. by rewrite resolve_eq, Hd, Hraw. Qed.

(** [create] for a class without parameters. *)
Lemma create_no_params fuel this ctor w :
  effective_params ctor w = [] ->
  create fuel this ctor w =
  Ok (VObject (length (heap w)))
     (set_heap (heap w ++ [{| obj_class := ctor; obj_args := [] |}])
               (after_getParams ctor w)).
Proof.
  intros Hp. rewrite create_eq, getParams_after, Hp. simpl.
  unfold construct. by rewrite heap_after_getParams.
Qed.

(** [create] for a class with one parameter. *)
Lemma create_one_param fuel this ctor type w :
  effective_params ctor w = [Some type] ->
  create fuel this ctor w =
  match resolve fuel this type (after_getParams ctor w) with
  | Ok v w' => construct ctor [v] w'
  | Throw e w' => Throw e w'
  | OutOfFuel => OutOfFuel
  end.
Proof.
  intros Hp. rewrite create_eq, getParams_after, Hp. simpl. unfold bind, ret.
  by destruct (resolve fuel this type _).
Qed.

Lemma allocated_dependencies_set this this' type p w :
  allocated this (dependencies_set this' type p w) <-> allocated this w.
Proof. unfold allocated, dependencies_set; simpl. by rewrite length_insert. Qed.

Lemma allocated_instances_set this this' type v w :
  allocated this (instances_set this' type v w) <-> allocated this w.
Proof. unfold allocated, instances_set; simpl. by rewrite length_insert. Qed.

Lemma allocated_after_getParams this ctor w :
  allocated this (after_getParams ctor w) <-> allocated this w.
Proof. unfold allocated. by rewrite containers_after_getParams. Qed.

Lemma dependencies_set_lookup this type p w :
  allocated this w ->
  dependencies (the_container this (dependencies_set this type p w)) !! type = Some p.
Proof.
  intros Ha. rewrite dependencies_dependencies_set, decide_True by done.
  apply lookup_insert_eq.
Qed.

Lemma dependencies_set_lookup_ne this this' type type' p w :
  type <> type' ->
  dependencies (the_container this (dependencies_set this' type' p w)) !! type =
  dependencies (the_container this w) !! type.
Proof.
  intros Hne. rewrite dependencies_dependencies_set. case_decide as H; [|done].
  destruct H as [-> _]. by rewrite lookup_insert_ne.
Qed.

Lemma effective_params_note_invocation ctor this type w :
  effective_params ctor (note_invocation this type w) = effective_params ctor w.
Proof. done. Qed.

Lemma effective_params_dependencies_set ctor this type p w :
  effective_params ctor (dependencies_set this type p w) = effective_params ctor w.
Proof. done. Qed.

Lemma effective_params_instances_set ctor this type v w :
  effective_params ctor (instances_set this type v w) = effective_params ctor w.
Proof. done. Qed.

Lemma effective_params_set_heap ctor h w :
  effective_params ctor (set_heap h w) = effective_params ctor w.
Proof. done. Qed.

Lemma the_container_note_invocation this this' type w :
  the_container this (note_invocation this' type w) = the_container this w.
Proof. done. Qed.

Lemma the_container_set_heap this h w :
  the_container this (set_heap h w) = the_container this w.
Proof. done. Qed.

Lemma allocated_note_invocation this this' type w :
  allocated this (note_invocation this' type w) <-> allocated this w.
Proof. done. Qed.

Lemma allocated_set_heap this h w :
  allocated this (set_heap h w) <-> allocated this w.
Proof. done. Qed.

Lemma post_returning (R : relation World) {A} (m : M A) :
  post R m -> returning R m.
Proof. intros Hm w a w' Hw. by eapply post_Ok. Qed.

Lemma mapped_in_order_lookup (R : relation World) `{!PreOrder R} {A B}
    (f : A -> M B) arr w ys w' j x :
  (forall x, returning R (f x)) ->
  mapped_in_order f arr w ys w' ->
  arr !! j = Some (Some x) ->
  exists wa y wb, R w wa /\ f x wa = Ok y wb /\ ys !! j = Some (Some y).
Proof.
  intros Hf Hm. revert j.
  induction Hm as [w|rest w ys w' _ IH|x' rest w y w1 ys w' Hx _ IH]; intros j Hj.
  - done.
  - destruct j as [|j]; [done|]. by apply IH.
  - destruct j as [|j].
    + simpl in Hj. injection Hj as <-. by exists w, y, w1.
    + destruct (IH j Hj) as (wa & y' & wb & HR & Hy & Hys).
      exists wa, y', wb. split_and!; [|done..].
      etrans; [by eapply Hf|done].
Qed.

(** The argument a construction that returns passed at a position is what
    resolving the token at that position returned, in a later state of the
    same resolution. *)
Lemma create_Ok_argument fuel this ctor w v w' j tok :
  create fuel this ctor w = Ok v w' ->
  effective_params ctor w !! j = Some (Some tok) ->
  exists b o w1 x w2,
    v = VObject b /\ heap w' !! b = Some o /\ obj_class o = ctor
    /\ length (obj_args o) = length (effective_params ctor w)
    /\ extends w w1 /\ resolve fuel this tok w1 = Ok x w2
    /\ obj_args o !! j = Some x.
Proof.
  intros (wg & args & w2 & Hg & Hmap & -> & ->)%create_Ok Hpos.
  rewrite getParams_after in Hg. injection Hg as <-.
  destruct (mapped_in_order_lookup extends _ _ _ _ _ _ _
              (fun x => post_returning _ _ (post_resolve fuel this x)) Hmap Hpos)
    as (wa & x & wb & Hext & Hres & Hx).
  eexists _, _, wa, x, wb. split; [done|]. split.
  { simpl. rewrite lookup_app_r, Nat.sub_diag by done. done. }
  split_and!; [done| | |done|].
  - simpl. rewrite length_spread. by eapply mapped_in_order_length.
  - etrans; [apply extends_after_getParams|done].
  - simpl. unfold spread. by rewrite list_lookup_fmap, Hx.
Qed.

Lemma spread_app ys1 ys2 : spread (ys1 ++ ys2) = spread ys1 ++ spread ys2.
Proof. apply fmap_app. Qed.

(** Resolving a token provided as a prototype with [() => v]. *)
Lemma resolve_constant fuel this type v w :
  dependencies (the_container this w) !! type = Some (Custom (constant_factory v)) ->
  resolve (S fuel) this type w
  = Ok v (set_heap (heap w ++ []) (note_invocation this type w)).
Proof. intros Hd. by rewrite resolve_eq, Hd. Qed.


(** ** Fresh objects and the growth of the heap *)

Lemma step_heap w w' : step w w' -> heap w `prefix_of` heap w'.
Proof.
  intros (c & Halloc & Hrun).
  destruct c as [this type f scope|this ctor scope|fuel this type|];
    unfold run_call in Hrun.
  - rewrite provide_eq in Hrun. by case_decide; simplify_eq/=.
  - unfold register in Hrun. rewrite provide_eq in Hrun.
    by case_decide; simplify_eq/=.
  - unfold bind, ret in Hrun. pose proof (post_resolve fuel this type w) as H.
    destruct (resolve fuel this type w); simplify_eq/=; by apply ext_heap.
  - unfold bind, ret in Hrun.
    destruct (newContainer w) as [r w1| |] eqn:E; [|done..].
    injection Hrun as <-. by injection E as <- <-.
Qed.

Lemma steps_heap w w' : steps w w' -> heap w `prefix_of` heap w'.
Proof. induction 1; [done|]. etrans; [by apply step_heap|done]. Qed.

Lemma step_invocations w w' : step w w' -> invocations w `prefix_of` invocations w'.
Proof.
  intros (c & Halloc & Hrun).
  destruct c as [this type f scope|this ctor scope|fuel this type|];
    unfold run_call in Hrun.
  - rewrite provide_eq in Hrun. by case_decide; simplify_eq/=.
  - unfold register in Hrun. rewrite provide_eq in Hrun.
    by case_decide; simplify_eq/=.
  - unfold bind, ret in Hrun. pose proof (post_resolve fuel this type w) as H.
    destruct (resolve fuel this type w); simplify_eq/=; by apply ext_invocations.
  - unfold bind, ret in Hrun.
    destruct (newContainer w) as [r w1| |] eqn:E; [|done..].
    injection Hrun as <-. by injection E as <- <-.
Qed.

Lemma invocation_count_prefix this type w w' :
  invocations w `prefix_of` invocations w' ->
  invocation_count this type w <= invocation_count this type w'.
Proof.
  unfold invocation_count. intros [l ->]. rewrite filter_app, length_app. lia.
Qed.

(** A provider that produces fresh objects returns an object that was not
    on the heap when it was called. *)
Lemma invoke_fresh fuel raw w v w' :
  produces_fresh raw ->
  invoke fuel raw w = Ok v w' ->
  exists b, v = VObject b /\ length (heap w) <= b < length (heap w').
Proof.
  destruct fuel as [|fuel]; [done|].
  destruct raw as [f|this ctor|]; [| |done]; intros Hfresh Hinv.
  - simpl in Hinv. unfold call_factory in Hinv.
    destruct (Hfresh (heap w)) as (k & Hk & Hret).
    destruct (f (heap w)) as [objs c]. simpl in *. subst c.
    injection Hinv as <- <-. eexists. split; [done|].
    simpl. rewrite length_app. lia.
  - rewrite invoke_create_eq in Hinv.
    apply create_Ok_object in Hinv as (b & o & -> & Ho & Hb & _).
    exists b. split; [done|]. split; [done|]. by eapply lookup_lt_Some.
Qed.

Lemma raw_provider_is_raw this type p : raw_provider this type p -> is_raw p = true.
Proof. by destruct 1. Qed.

Lemma wf_not_cached_raw this type raw w :
  wf w -> dependencies (the_container this w) !! type = Some raw ->
  is_raw raw = true -> ~ cached this type w.
Proof.
  intros Hwf Hd Hraw Hc. destruct (wf_cached _ Hwf _ _ Hc) as [[q Hq] _].
  rewrite Hd in Hq. by simplify_eq.
Qed.

Lemma wf_not_cached_unregistered this type w :
  wf w -> ~ registered this type w -> ~ cached this type w.
Proof.
  intros Hwf Hn Hc. destruct (wf_cached _ Hwf _ _ Hc) as [[q Hq] _].
  apply Hn. by eexists.
Qed.


(** ** Containers do not see each other *)

Section isolation.
Context (c1 c2 : ContainerRef) (X : Container) (Hne : c2 <> c1).

Local Abbreviation S := (set_container c2 X).

Lemma the_container_other w : the_container c1 (S w) = the_container c1 w.
Proof.
  rewrite the_container_set_container, decide_False; [done|].
  intros [? _]. by apply Hne.
Qed.

Lemma set_container_other Y w :
  set_container c1 Y (S w) = S (set_container c1 Y w).
Proof.
  unfold set_container; simpl. f_equal. by apply list_insert_insert_ne.
Qed.

Lemma instances_set_other type v w :
  instances_set c1 type v (S w) = S (instances_set c1 type v w).
Proof.
  unfold instances_set. by rewrite the_container_other, set_container_other.
Qed.

Lemma dependencies_set_other type p w :
  dependencies_set c1 type p (S w) = S (dependencies_set c1 type p w).
Proof.
  unfold dependencies_set. by rewrite the_container_other, set_container_other.
Qed.

Lemma after_getParams_other ctor w :
  after_getParams ctor (S w) = S (after_getParams ctor w).
Proof.
  unfold after_getParams; simpl. by destruct (design_paramtypes w !! ctor).
Qed.

Lemma self_contained_extends w w' :
  extends w w' -> self_contained c1 w -> self_contained c1 w'.
Proof.
  intros Hext Hw type p. rewrite (ext_dependencies _ _ Hext). apply Hw.
Qed.

Local Abbreviation blind := (blind c1 c2 X).

Lemma blind_array_map {A B} (f : A -> M B) arr :
  (forall x, blind (f x)) -> (forall x, post extends (f x)) ->
  blind (array_map f arr).
Proof.
  intros Hf Hext. induction arr as [|[x|] arr IH]; intros w Hw; simpl.
  - done.
  - unfold bind. rewrite Hf by done.
    pose proof (Hext x w) as He.
    destruct (f x w) as [y w1| |]; simpl; [|done..].
    rewrite IH by (by eapply self_contained_extends).
    by destruct (array_map f arr w1).
  - unfold bind. rewrite IH by done. by destruct (array_map f arr w).
Qed.

Lemma blind_invoke fuel : forall p, owned c1 p -> blind (invoke fuel p).
Proof.
  induction fuel as [|fuel IH]; intros p Hp w Hw; [done|].
  assert (forall tok, blind (resolve fuel c1 tok)) as Hres.
  { intros tok w0 Hw0. rewrite !resolve_eq, the_container_other.
    destruct (dependencies (the_container c1 w0) !! tok) as [q|] eqn:Hq; [|done].
    destruct (is_raw q).
    - change (note_invocation c1 tok (S w0)) with (S (note_invocation c1 tok w0)).
      apply IH; [by eapply Hw0|exact Hw0].
    - apply IH; [by eapply Hw0|exact Hw0]. }
  destruct p as [f|this ctor|this type raw]; simpl in Hp.
  - simpl. unfold call_factory. simpl.
    by destruct (f (heap w)) as [objs [v|e]].
  - subst this. rewrite !invoke_create_eq, !create_eq, !getParams_after.
    rewrite after_getParams_other.
    change (effective_params ctor (S w)) with (effective_params ctor w).
    rewrite (blind_array_map _ _ Hres (post_resolve fuel c1))
      by (eapply self_contained_extends; [apply extends_after_getParams|done]).
    by destruct (array_map _ _ _).
  - destruct Hp as [-> Hraw]. rewrite !invoke_singleton_eq.
    assert (cached c1 type (S w) <-> cached c1 type w) as Hiff
      by (unfold cached; by rewrite (the_container_other w)).
    destruct (decide (cached c1 type (S w))) as [Hc|Hc],
             (decide (cached c1 type w)) as [Hc'|Hc']; try tauto.
    { simpl. by rewrite (the_container_other w). }
    change (note_invocation c1 type (S w)) with (S (note_invocation c1 type w)).
    rewrite IH by done.
    destruct (invoke fuel raw _) as [v w1| |]; simpl; [|done..].
    by rewrite !instances_set_other, (the_container_other (instances_set _ _ _ _)).
Qed.

Lemma blind_resolve fuel type : blind (resolve fuel c1 type).
Proof.
  intros w Hw. rewrite !resolve_eq, the_container_other.
  destruct (dependencies (the_container c1 w) !! type) as [q|] eqn:Hq; [|done].
  destruct (is_raw q).
  - change (note_invocation c1 type (S w)) with (S (note_invocation c1 type w)).
    apply blind_invoke; [by eapply Hw|exact Hw].
  - apply blind_invoke; [by eapply Hw|exact Hw].
Qed.

Lemma blind_provide type p scope : blind (provide c1 type p scope).
Proof.
  intros w _. rewrite !provide_eq.
  assert (registered c1 type (S w) <-> registered c1 type w) as Hiff
    by (unfold registered; by rewrite (the_container_other w)).
  destruct (decide (registered c1 type (S w))) as [Hc|Hc],
           (decide (registered c1 type w)) as [Hc'|Hc']; try tauto; simpl.
  by rewrite dependencies_set_other.
Qed.
End isolation.

Lemma wf_self_contained this w : wf w -> self_contained this w.
Proof.
  intros Hwf type p Hp. destruct (wf_stored _ Hwf _ _ _ Hp) as [q Hq|q Hq];
    by destruct Hq.
Qed.

(** A call on a container does the same whatever another container holds,
    and leaves in that other container whatever it held. *)
Lemma run_call_blind c c1 c2 X w :
  wf w -> call_target c = Some c1 -> c2 <> c1 ->
  run_call c (set_container c2 X w)
  = map_outcome (set_container c2 X) (run_call c w).
Proof.
  intros Hwf Ht Hne. pose proof (wf_self_contained c1 w Hwf) as Hsc.
  destruct c as [this type f scope|this ctor scope|fuel this type|];
    simplify_eq/=.
  - by apply blind_provide.
  - by apply blind_provide.
  - unfold bind, ret. rewrite blind_resolve by done.
    by destruct (resolve fuel c1 type w).
Qed.

Lemma set_container_id this w :
  set_container this (the_container this w) w = w.
Proof.
  destruct w as [h cs dp tk inv]. unfold set_container, the_container; simpl.
  f_equal. destruct (decide (this < length cs)) as [Hlt|Hge].
  - apply list_insert_id. by apply list_lookup_lookup_total_lt.
  - apply list_insert_ge. lia.
Qed.

Lemma run_call_containers_length c c1 w w' :
  call_target c = Some c1 ->
  outcome_world (run_call c w) = Some w' ->
  length (containers w') = length (containers w).
Proof.
  intros Ht Hrun.
  destruct c as [this type f scope|this ctor scope|fuel this type|];
    simplify_eq/=; unfold run_call in Hrun.
  - rewrite provide_eq in Hrun. case_decide; simplify_eq/=; [done|].
    by rewrite length_insert.
  - unfold register in Hrun. rewrite provide_eq in Hrun.
    case_decide; simplify_eq/=; [done|]. by rewrite length_insert.
  - unfold bind, ret in Hrun. pose proof (post_resolve fuel c1 type w) as H.
    destruct (resolve fuel c1 type w); simplify_eq/=; by apply ext_containers.
Qed.

Lemma run_call_other_container c c1 c2 w w' :
  wf w -> call_target c = Some c1 -> c2 <> c1 ->
  outcome_world (run_call c w) = Some w' ->
  the_container c2 w' = the_container c2 w.
Proof.
  intros Hwf Ht Hne Hrun.
  pose proof (run_call_blind c c1 c2 (the_container c2 w) w Hwf Ht Hne) as Hb.
  rewrite set_container_id in Hb.
  assert (w' = set_container c2 (the_container c2 w) w') as Hw'.
  { destruct (run_call c w); simplify_eq/=; congruence. }
  pose proof (run_call_containers_length _ _ _ _ Ht Hrun) as Hlen.
  destruct (decide (allocated c2 w')) as [Ha|Ha].
  - rewrite Hw', the_container_set_container, decide_True; [done|].
    split; [done|]. unfold allocated in *. rewrite Hw' in Ha. simpl in Ha.
    by rewrite length_insert in Ha.
  - rewrite (the_container_dangling c2 w') by done.
    symmetry. apply the_container_dangling. unfold allocated in *. by rewrite <- Hlen.
Qed.

(** The first resolution of a singleton, taken apart. *)
Lemma resolve_singleton_first fuel this type raw w v w' :
  dependencies (the_container this w) !! type = Some (SingletonClosure this type raw) ->
  ~ cached this type w ->
  resolve fuel this type w = Ok v w' ->
  exists fuel' w1,
    fuel = S fuel'
    /\ invoke fuel' raw (note_invocation this type w) = Ok v w1
    /\ w' = instances_set this type v w1
    /\ pinned this type raw v (invocation_count this type w') w'.
Proof.
  intros Hd Hmiss Hres. destruct fuel as [|fuel].
  { by rewrite resolve_eq, Hd in Hres. }
  rewrite (resolve_singleton_miss _ _ _ raw) in Hres by done.
  destruct (invoke fuel raw _) as [v' w1| |] eqn:Hinv; [|done..].
  injection Hres as -> <-. exists fuel, w1. split_and!; [done..|].
  pose proof (post_Ok extends _ _ _ _ (post_invoke fuel raw) Hinv) as Hext.
  split_and!; [..|done].
  - by rewrite dependencies_instances_set, (ext_dependencies _ _ Hext).
  - apply instances_set_lookup. eapply allocated_extends; [exact Hext|].
    eapply registered_allocated. by eexists.
Qed.


Lemma instances_set_dangling this type v w :
  ~ allocated this w -> instances_set this type v w = w.
Proof.
  intros Ha. unfold instances_set, set_container.
  rewrite list_insert_ge by (unfold allocated in Ha; lia). by destruct w.
Qed.

(** ** A resolution never re-enters a singleton it is resolving *)

#[global] Instance quiet_preorder : PreOrder quiet.
Proof.
  split.
  - intros w. by split.
  - intros w1 w2 w3 [He1 Hc1] [He2 Hc2]. split; [by etrans|].
    intros this. by rewrite Hc2, Hc1.
Qed.

Lemma quiet_extends w w' : quiet w w' -> extends w w'.
Proof. by intros [? _]. Qed.

Lemma quiet_note_invocation this type w : quiet w (note_invocation this type w).
Proof. split; [apply extends_note_invocation|done]. Qed.

Lemma quiet_set_heap objs w : quiet w (set_heap (heap w ++ objs) w).
Proof. split; [apply extends_set_heap|done]. Qed.

Lemma quiet_after_getParams ctor w : quiet w (after_getParams ctor w).
Proof.
  split; [apply extends_after_getParams|].
  intros this. by rewrite the_container_after_getParams.
Qed.

Lemma quiet_cached this type w w' : quiet w w' -> cached this type w' <-> cached this type w.
Proof. intros [_ Hc]. unfold cached. by rewrite Hc. Qed.

Lemma extends_cached this type w w' :
  extends w w' -> cached this type w -> cached this type w'.
Proof.
  intros Hext [v Hv]. exists v.
  eapply lookup_weaken; [exact Hv|]. apply (ext_instances _ _ Hext).
Qed.

Lemma uncached_quiet K w w' : quiet w w' -> uncached K w -> uncached K w'.
Proof. intros Hq HK k Hk Hc. apply (HK k Hk). by apply (quiet_cached _ _ w w'). Qed.

Lemma uncached_extends K w w' : extends w w' -> uncached K w' -> uncached K w.
Proof. intros Hq HK k Hk Hc. apply (HK k Hk). by eapply extends_cached. Qed.

(** Running again what has already been run, from a later state, resolves
    no singleton: everything the first run cached is found in the cache. *)
Lemma replay_invoke fuel :
  forall q w v w1, invoke fuel q w = Ok v w1 ->
  forall fuel2 w2 v2 w2',
    extends w1 w2 -> invoke fuel2 q w2 = Ok v2 w2' -> quiet w2 w2'.
Proof.
  induction fuel as [|fuel IH]; intros q w v w1 Hrun fuel2 w2 v2 w2' Hext Hrun2;
    [done|].
  destruct fuel2 as [|fuel2]; [done|].
  pose proof (post_Ok extends _ _ _ _ (post_invoke (S fuel) q) Hrun) as Hext1.
  assert (forall this x wa y wa1 wb y2 wb1,
            resolve fuel this x wa = Ok y wa1 -> extends wa1 wb ->
            resolve fuel2 this x wb = Ok y2 wb1 -> quiet wb wb1) as Hres.
  { intros this x wa y wa1 wb y2 wb1 Hr1 He Hr2.
    pose proof (post_Ok extends _ _ _ _ (post_resolve fuel this x) Hr1) as He1.
    rewrite resolve_eq in Hr1, Hr2.
    rewrite (ext_dependencies _ _ He), (ext_dependencies _ _ He1) in Hr2.
    destruct (dependencies (the_container this wa) !! x) as [q'|]; [|done].
    destruct (is_raw q').
    - etrans; [apply (quiet_note_invocation this x)|].
      eapply IH; [exact Hr1| |exact Hr2].
      etrans; [exact He|apply extends_note_invocation].
    - eapply IH; [exact Hr1|exact He|exact Hr2]. }
  destruct q as [f|this ctor|this type raw].
  - simpl in Hrun2. unfold call_factory in Hrun2.
    destruct (f (heap w2)) as [objs [v'|e]]; [|done].
    injection Hrun2 as <- <-. apply quiet_set_heap.
  - rewrite invoke_create_eq in Hrun, Hrun2.
    apply create_Ok in Hrun as (wg & args & wm & _ & Hmap & _ & ->).
    apply create_Ok in Hrun2 as (wg2 & args2 & wm2 & Hg2 & Hmap2 & _ & ->).
    rewrite getParams_after in Hg2. injection Hg2 as <-.
    rewrite (ext_params _ _ Hext), (ext_params _ _ Hext1) in Hmap2.
    etrans; [apply (quiet_after_getParams ctor)|].
    etrans; [|apply quiet_set_heap].
    assert (extends wm (after_getParams ctor w2)) as Hstart.
    { etrans; [apply extends_set_heap|].
      etrans; [exact Hext|apply extends_after_getParams]. }
    clear Hext Hext1.
    revert Hstart Hmap2. generalize (after_getParams ctor w2) as wb.
    revert args2 wm2.
    induction Hmap as [wa|rest wa ys wc _ IHm|x rest wa y wa1 ys wc Hr1 Hrest IHm];
      intros args2 wm2 wb Hstart Hmap2.
    + inversion Hmap2; subst. reflexivity.
    + inversion Hmap2; subst. by eapply IHm.
    + inversion Hmap2 as [| |? ? ? y2 wb1 ys2 ? Hr2 Hrest2]; subst.
      assert (extends wa1 wc) as He1.
      { apply array_map_Ok in Hrest.
        eapply (post_Ok extends), Hrest. apply post_array_map_resolve. }
      assert (quiet wb wb1) as Hq1 by (eapply Hres; [exact Hr1|by etrans|exact Hr2]).
      etrans; [exact Hq1|]. eapply IHm; [|exact Hrest2].
      etrans; [exact Hstart|by apply quiet_extends].
  - rewrite invoke_singleton_eq in Hrun2.
    case_decide as Hc2; [injection Hrun2 as _ <-; reflexivity|].
    rewrite invoke_singleton_eq in Hrun.
    case_decide as Hc.
    { exfalso. apply Hc2. eapply extends_cached; [exact Hext|].
      by eapply extends_cached. }
    destruct (invoke fuel raw (note_invocation this type w))
      as [v' w'| |] eqn:Hinv; [|done..].
    destruct (invoke fuel2 raw (note_invocation this type w2))
      as [v2' w2''| |] eqn:Hinv2; [|done..].
    simpl in Hrun, Hrun2. injection Hrun as _ <-. injection Hrun2 as _ <-.
    pose proof (post_Ok extends _ _ _ _ (post_invoke fuel2 raw) Hinv2) as He2.
    destruct (decide (allocated this w')) as [Ha|Ha].
    { exfalso. apply Hc2. eapply extends_cached; [exact Hext|].
      eexists. by apply instances_set_lookup. }
    rewrite instances_set_dangling in Hext by done.
    rewrite instances_set_dangling.
    + etrans; [apply (quiet_note_invocation this type)|].
      eapply IH; [exact Hinv| |exact Hinv2].
      etrans; [exact Hext|apply extends_note_invocation].
    + unfold allocated in *.
      rewrite (ext_containers _ _ He2). simpl.
      by rewrite (ext_containers _ _ Hext).
Qed.

(** A run of the raw provider cannot contain a run of itself that returns:
    the inner run would contain one too, with less fuel, and so on. *)
Lemma reentry_absurd this type raw w w' :
  reentry this type raw w w' (fun fuel => invoke fuel raw) -> False.
Proof.
  intros (w_n & K & fuel_n & v_n & w_n' & _ & _ & _ & HK & Hrun & Hfol).
  assert (forall m w2 v2 w2',
            extends w_n w2 -> uncached K w2 -> invoke m raw w2 = Ok v2 w2' -> False)
    as Hdescent.
  { induction m as [m IHm] using lt_wf_ind. intros w2 v2 w2' He HK2 Hrun2.
    destruct (Hfol m w2 v2 w2' He HK2 Hrun2) as (f3 & w3 & v3 & w3' & Hlt & Hq & Hrun3).
    eapply (IHm f3 Hlt w3); [|by eapply uncached_quiet|exact Hrun3].
    etrans; [exact He|by apply quiet_extends]. }
  by eapply (Hdescent fuel_n w_n).
Qed.

Lemma cached_instances_set_ne this type this' type' v w :
  (this', type') <> (this, type) ->
  cached this type (instances_set this' type' v w) <-> cached this type w.
Proof.
  intros Hne. unfold cached. rewrite instances_instances_set.
  case_decide as H; [|done]. destruct H as [-> _].
  rewrite lookup_insert_ne; [done|congruence].
Qed.

(** If a run that returns caches a singleton that was not cached when it
    started, it went through a first call of that singleton's raw
    provider. *)
Lemma reentry_invoke fuel :
  forall this type raw q w v w',
    wf w ->
    dependencies (the_container this w) !! type = Some (SingletonClosure this type raw) ->
    placed q w ->
    ~ cached this type w -> cached this type w' ->
    invoke fuel q w = Ok v w' ->
    reentry this type raw w w' (fun fuel => invoke fuel q).
Proof.
  induction fuel as [|fuel IH]; [done|].
  (* the raw provider of a singleton being resolved does not cache it *)
  assert (forall this type raw w v w',
            wf w ->
            dependencies (the_container this w) !! type
              = Some (SingletonClosure this type raw) ->
            ~ cached this type w ->
            invoke fuel raw w = Ok v w' -> ~ cached this type w') as Hnr.
  { intros this type raw w v w' Hwf Hd Hmiss Hrun Hhit.
    apply (reentry_absurd this type raw w w'). eapply IH; eauto.
    pose proof (wf_stored _ Hwf _ _ _ Hd) as Hst.
    inversion Hst as [q Hraw Heq|q Hraw Heq]; subst; [by inversion Hraw|].
    by destruct Hraw. }
  intros this type raw q w v w' Hwf Hd Hp Hmiss Hhit Hrun.
  (* resolving one parameter *)
  assert (forall c' x wa y wa1,
            resolve fuel c' x wa = Ok y wa1 ->
            wf wa ->
            dependencies (the_container this wa) !! type
              = Some (SingletonClosure this type raw) ->
            ~ cached this type wa -> cached this type wa1 ->
            reentry this type raw wa wa1 (fun fuel2 => resolve fuel2 c' x)) as Hres.
  { intros c' x wa y wa1 Hr Hwfa Hda Hma Hha.
    rewrite resolve_eq in Hr.
    destruct (dependencies (the_container c' wa) !! x) as [q'|] eqn:Hq'; [|done].
    set (s := fun w0 => if is_raw q' then note_invocation c' x w0 else w0) in *.
    assert (forall w0, quiet w0 (s w0)) as Hs.
    { intros w0. unfold s. destruct (is_raw q'); [apply quiet_note_invocation|done]. }
    assert (wf (s wa) /\ placed q' (s wa)) as [Hwfs Hps].
    { pose proof (wf_stored _ Hwfa _ _ _ Hq') as Hst. unfold s.
      inversion Hst as [q0 Hraw Heq|q0 Hraw Heq]; subst.
      - rewrite (raw_provider_is_raw _ _ _ Hraw). split; [|by destruct Hraw].
        apply wf_note_invocation; [done|by eexists].
      - done. }
    destruct (IH this type raw q' (s wa) y wa1) as
      (w_n & K & fuel_n & v_n & w_n' & He1 & He2 & Hk & HK & Hrun_n & Hfol);
      [done| |done| |done|exact Hr|].
    { by rewrite (ext_dependencies _ _ (quiet_extends _ _ (Hs wa))). }
    { by rewrite (quiet_cached _ _ _ _ (Hs wa)). }
    exists w_n, K, fuel_n, v_n, w_n'. split_and!; [|done..|].
    { etrans; [apply quiet_extends, Hs|done]. }
    intros fuel2 w2 a2 w2' He HK2 Hrun2. rewrite resolve_eq in Hrun2.
    assert (extends wa w2) as Hea.
    { etrans; [apply quiet_extends, Hs|]. by etrans. }
    rewrite (ext_dependencies _ _ Hea), Hq' in Hrun2. fold (s w2) in Hrun2.
    destruct (Hfol fuel2 (s w2) a2 w2') as (f3 & w3 & v3 & w3' & Hlt & Hq & Hrun3);
      [|eapply uncached_quiet; [apply Hs|done]|exact Hrun2|].
    { etrans; [exact He|apply quiet_extends, Hs]. }
    exists f3, w3, v3, w3'. split_and!; [done| |done].
    etrans; [apply Hs|done]. }
  destruct q as [f|c' ctor|c1 t1 raw1].
  - (* a factory caches nothing *)
    exfalso. simpl in Hrun. unfold call_factory in Hrun.
    destruct (f (heap w)) as [objs [v'|e]]; [|done].
    injection Hrun as _ <-. done.
  - (* [create]: the call is in the resolution of one of the parameters *)
    rewrite invoke_create_eq in Hrun.
    apply create_Ok in Hrun as (wg & args & wm & Hg & Hmap & _ & ->).
    rewrite getParams_after in Hg. injection Hg as <-.
    assert (forall arr wa ys wb,
              mapped_in_order (resolve fuel c') arr wa ys wb ->
              wf wa ->
              dependencies (the_container this wa) !! type
                = Some (SingletonClosure this type raw) ->
              ~ cached this type wa -> cached this type wb ->
              reentry this type raw wa wb
                (fun fuel2 => array_map (resolve fuel2 c') arr)) as Hlist.
    { clear Hmap. intros arr wa ys wb Hmap.
      induction Hmap as [wa|rest wa ys wb _ IHm|x rest wa y wa1 ys wb Hr1 Hrest IHm];
        intros Hwfa Hda Hma Hhb.
      + done.
      + destruct IHm as
          (w_n & K & fuel_n & v_n & w_n' & He1 & He2 & Hk & HK & Hrun_n & Hfol);
          [done..|].
        exists w_n, K, fuel_n, v_n, w_n'. split_and!; [done..|].
        intros fuel2 w2 a2 w2' He HK2 Hrun2.
        apply array_map_Ok in Hrun2. inversion Hrun2; subst.
        eapply Hfol; [done..|]. by apply array_map_Ok.
      + assert (extends wa wa1) as Hea1
          by (eapply (post_Ok extends), Hr1; apply post_resolve).
        assert (extends wa1 wb) as He1b.
        { apply array_map_Ok in Hrest.
          eapply (post_Ok extends), Hrest. apply post_array_map_resolve. }
        destruct (decide (cached this type wa1)) as [Hh1|Hm1].
        * (* it is in the resolution of [x] *)
          destruct (Hres c' x wa y wa1 Hr1 Hwfa Hda Hma Hh1) as
            (w_n & K & fuel_n & v_n & w_n' & He1 & He2 & Hk & HK & Hrun_n & Hfol).
          exists w_n, K, fuel_n, v_n, w_n'. split_and!; [done|by etrans|done..|].
          intros fuel2 w2 a2 w2' He HK2 Hrun2.
          apply array_map_Ok in Hrun2.
          inversion Hrun2 as [| |? ? ? y2 w2a ys2 ? Hr2 Hrest2]; subst.
          by eapply Hfol.
        * (* it is further on: [x] is resolved again without a trace *)
          destruct IHm as
            (w_n & K & fuel_n & v_n & w_n' & He1 & He2 & Hk & HK & Hrun_n & Hfol).
          { pose proof (inv_resolve fuel c' x wa Hwfa) as H. by rewrite Hr1 in H. }
          { by rewrite (ext_dependencies _ _ Hea1). }
          { done. }
          { done. }
          exists w_n, K, fuel_n, v_n, w_n'. split_and!; [by etrans|done..|].
          intros fuel2 w2 a2 w2' He HK2 Hrun2.
          apply array_map_Ok in Hrun2.
          inversion Hrun2 as [| |? ? ? y2 w2a ys2 ? Hr2 Hrest2]; subst.
          assert (quiet w2 w2a) as Hq2.
          { rewrite !resolve_eq in Hr1, Hr2.
            assert (extends wa w2) as Hea2 by (etrans; [exact Hea1|by etrans]).
            rewrite (ext_dependencies _ _ Hea2) in Hr2.
            destruct (dependencies (the_container c' wa) !! x) as [q'|]; [|done].
            destruct (is_raw q').
            - etrans; [apply (quiet_note_invocation c' x)|].
              eapply replay_invoke; [exact Hr1| |exact Hr2].
              etrans; [exact He1|]. etrans; [exact He|].
              apply extends_note_invocation.
            - eapply replay_invoke; [exact Hr1| |exact Hr2]. by etrans. }
          apply array_map_Ok in Hrest2.
          destruct (Hfol fuel2 w2a ys2 w2') as
            (f3 & w3 & v3 & w3' & Hlt & Hq & Hrun3);
            [|by eapply uncached_quiet|done|].
          { etrans; [exact He|by apply quiet_extends]. }
          exists f3, w3, v3, w3'. split_and!; [done| |done]. by etrans. }
    destruct (Hlist _ _ _ _ Hmap) as
      (w_n & K & fuel_n & v_n & w_n' & He1 & He2 & Hk & HK & Hrun_n & Hfol).
    { pose proof (inv_getParams ctor w Hwf) as H. by rewrite getParams_after in H. }
    { by rewrite the_container_after_getParams. }
    { unfold cached. by rewrite the_container_after_getParams. }
    { done. }
    exists w_n, K, fuel_n, v_n, w_n'. split_and!; [| |done..|].
    { etrans; [apply extends_after_getParams|done]. }
    { etrans; [exact He2|apply extends_set_heap]. }
    intros fuel2 w2 a2 w2' He HK2 Hrun2.
    destruct fuel2 as [|fuel2]; [done|].
    rewrite invoke_create_eq in Hrun2.
    apply create_Ok in Hrun2 as (wg2 & args2 & wm2 & Hg2 & Hmap2 & _ & _).
    rewrite getParams_after in Hg2. injection Hg2 as <-.
    assert (extends w w2) as Hew.
    { etrans; [apply extends_after_getParams|]. by etrans. }
    rewrite (ext_params _ _ Hew) in Hmap2. apply array_map_Ok in Hmap2.
    destruct (Hfol fuel2 (after_getParams ctor w2) args2 wm2) as
      (f3 & w3 & v3 & w3' & Hlt & Hq & Hrun3);
      [|eapply uncached_quiet; [apply quiet_after_getParams|done]|done|].
    { etrans; [exact He|apply extends_after_getParams]. }
    exists f3, w3, v3, w3'. split_and!; [lia| |done].
    etrans; [apply quiet_after_getParams|done].
  - (* a memoizing closure *)
    simpl in Hp. rewrite invoke_singleton_eq in Hrun.
    case_decide as Hc1; [injection Hrun as _ <-; done|].
    destruct (invoke fuel raw1 (note_invocation c1 t1 w)) as [v1 w1| |] eqn:Hinv;
      [|done..].
    simpl in Hrun. injection Hrun as _ <-.
    assert (wf (note_invocation c1 t1 w)) as Hwfs
      by (apply wf_note_invocation; [done|by eexists]).
    assert (~ cached c1 t1 w1) as Hm1 by (by eapply (Hnr c1 t1 raw1)).
    assert (extends (note_invocation c1 t1 w) w1) as Hes
      by (eapply (post_Ok extends), Hinv; apply post_invoke).
    assert (extends w1 (instances_set c1 t1 v1 w1)) as Hset
      by (by apply extends_instances_set).
    destruct (decide ((c1, t1) = (this, type))) as [[= -> ->]|Hne].
    + (* the singleton itself: this is the call *)
      rewrite Hd in Hp. injection Hp as <-.
      exists (note_invocation this type w), [(this, type)], fuel, v1, w1.
      split_and!; [apply extends_note_invocation|by etrans|set_solver| |done|].
      { intros k ->%list_elem_of_singleton. done. }
      intros fuel2 w2 a2 w2' He HK2 Hrun2.
      destruct fuel2 as [|fuel2]; [done|].
      rewrite invoke_singleton_eq in Hrun2.
      rewrite decide_False in Hrun2 by (apply (HK2 (this, type)); set_solver).
      destruct (invoke fuel2 raw (note_invocation this type w2)) as [v3 w3'| |] eqn:Hinv2;
        [|done..].
      exists fuel2, (note_invocation this type w2), v3, w3'.
      split_and!; [lia|apply quiet_note_invocation|done].
    + (* another singleton: the call is inside its raw provider *)
      assert (placed raw1 (note_invocation c1 t1 w)) as Hp1.
      { pose proof (wf_stored _ Hwf _ _ _ Hp) as Hst.
        inversion Hst as [q Hraw Heq|q Hraw Heq]; subst; [by inversion Hraw|].
        by destruct Hraw. }
      destruct (IH this type raw raw1 (note_invocation c1 t1 w) v1 w1) as
        (w_n & K & fuel_n & v_n & w_n' & He1 & He2 & Hk & HK & Hrun_n & Hfol);
        [done..| |done|].
      { by apply (cached_instances_set_ne this type c1 t1 v1 w1). }
      exists w_n, ((c1, t1) :: K), fuel_n, v_n, w_n'.
      split_and!; [|by etrans|set_solver| |done|].
      { etrans; [apply extends_note_invocation|done]. }
      { intros k [->|Hk']%elem_of_cons; [|by apply HK].
        intros Hc. apply Hm1. by eapply extends_cached. }
      intros fuel2 w2 a2 w2' He HK2 Hrun2.
      destruct fuel2 as [|fuel2]; [done|].
      rewrite invoke_singleton_eq in Hrun2.
      rewrite decide_False in Hrun2 by (apply (HK2 (c1, t1)); set_solver).
      destruct (invoke fuel2 raw1 (note_invocation c1 t1 w2)) as [v3 w3'| |] eqn:Hinv2;
        [|done..].
      destruct (Hfol fuel2 (note_invocation c1 t1 w2) v3 w3') as
        (f3 & w3 & v3' & w3'' & Hlt & Hq & Hrun3); [| |done|].
      { etrans; [exact He|apply extends_note_invocation]. }
      { eapply uncached_quiet; [apply quiet_note_invocation|].
        intros k Hk'. apply HK2. set_solver. }
      exists f3, w3, v3', w3''. split_and!; [lia| |done].
      etrans; [apply quiet_note_invocation|done].
Qed.

(** The raw provider of a singleton that is being resolved for the first
    time does not resolve that singleton itself. *)
Lemma raw_provider_does_not_cache fuel this type raw w v w' :
  wf w ->
  dependencies (the_container this w) !! type = Some (SingletonClosure this type raw) ->
  ~ cached this type w ->
  invoke fuel raw w = Ok v w' ->
  ~ cached this type w'.
Proof.
  intros Hwf Hd Hmiss Hrun Hhit.
  apply (reentry_absurd this type raw w w').
  eapply reentry_invoke; eauto.
  pose proof (wf_stored _ Hwf _ _ _ Hd) as Hst.
  inversion Hst as [q Hraw Heq|q Hraw Heq]; subst; [by inversion Hraw|].
  by destruct Hraw.
Qed.

(** ** Counting the calls of a raw provider *)

#[global] Instance silent_preorder this type : PreOrder (silent this type).
Proof.
  split.
  - intros w. by split.
  - intros w1 w2 w3 [He1 Hc1] [He2 Hc2]. split; [by etrans|].
    intros Hd Hm. rewrite Hc2, Hc1; [done|done| |by rewrite (ext_dependencies _ _ He1)|done].
    intros Hc. apply Hm. by eapply extends_cached.
Qed.

Lemma silent_set_heap this type objs w :
  silent this type w (set_heap (heap w ++ objs) w).
Proof. split; [apply extends_set_heap|done]. Qed.

Lemma silent_after_getParams this type ctor w :
  silent this type w (after_getParams ctor w).
Proof.
  split; [apply extends_after_getParams|]. intros _ _.
  unfold invocation_count. by rewrite invocations_after_getParams.
Qed.

Lemma silent_note_invocation this type this' type' w :
  (this', type') <> (this, type) ->
  silent this type w (note_invocation this' type' w).
Proof.
  intros Hne. split; [apply extends_note_invocation|]. intros _ _.
  rewrite invocation_count_note, decide_False by done. lia.
Qed.

Lemma returning_array_map (R : relation World) `{!PreOrder R} {A B}
    (f : A -> M B) arr :
  (forall x, returning R (f x)) -> returning R (array_map f arr).
Proof.
  intros Hf w ys w' Hm. apply array_map_Ok in Hm.
  induction Hm as [w|rest w ys w' _ IH|x rest w y w1 ys w' Hx _ IH].
  - reflexivity.
  - done.
  - etrans; [by eapply Hf|done].
Qed.

(** A run that returns and leaves a singleton uncached has not called its
    raw provider. *)
Lemma returning_silent_invoke this type fuel :
  forall q, returning (silent this type) (invoke fuel q).
Proof.
  induction fuel as [|fuel IH]; intros q; [done|].
  assert (forall c' x, returning (silent this type) (resolve fuel c' x)) as Hres.
  { intros c' x w v w' Hr. rewrite resolve_eq in Hr.
    destruct (dependencies (the_container c' w) !! x) as [q'|] eqn:Hq'; [|done].
    destruct (is_raw q') eqn:Hraw; [|by eapply IH].
    destruct (decide ((c', x) = (this, type))) as [[= -> ->]|Hne].
    - (* the token is a prototype: nothing is claimed *)
      pose proof (post_Ok extends _ _ _ _ (post_invoke fuel q') Hr) as He.
      split; [etrans; [apply extends_note_invocation|done]|].
      intros [raw Hd]. rewrite Hd in Hq'. by simplify_eq.
    - etrans; [by apply (silent_note_invocation this type c' x w)|by eapply IH]. }
  intros w v w' Hrun. destruct q as [f|c' ctor|c1 t1 raw1].
  - simpl in Hrun. unfold call_factory in Hrun.
    destruct (f (heap w)) as [objs [v'|e]]; [|done].
    injection Hrun as _ <-. apply silent_set_heap.
  - rewrite invoke_create_eq in Hrun.
    apply create_Ok in Hrun as (wg & args & wm & Hg & Hmap & _ & ->).
    rewrite getParams_after in Hg. injection Hg as <-.
    apply array_map_Ok in Hmap.
    etrans; [apply silent_after_getParams|].
    etrans; [|apply silent_set_heap].
    eapply (returning_array_map (silent this type)), Hmap. apply Hres.
  - pose proof (post_Ok extends _ _ _ _ (post_invoke (S fuel) _) Hrun) as Hext.
    rewrite invoke_singleton_eq in Hrun.
    case_decide as Hc; [injection Hrun as _ <-; reflexivity|].
    destruct (invoke fuel raw1 (note_invocation c1 t1 w)) as [v1 w1| |] eqn:Hinv;
      [|done..].
    simpl in Hrun. injection Hrun as _ <-.
    split; [done|]. intros Hd Hm.
    destruct (decide ((c1, t1) = (this, type))) as [[= -> ->]|Hne].
    + exfalso. apply Hm. eexists. apply instances_set_lookup.
      pose proof (post_Ok extends _ _ _ _ (post_invoke fuel raw1) Hinv) as He.
      eapply allocated_extends; [exact He|].
      destruct Hd as [raw Hd]. eapply registered_allocated. by eexists.
    + destruct (IH raw1 _ _ _ Hinv) as [_ Hraw].
      transitivity (invocation_count this type w1); [done|].
      rewrite Hraw; [|done|by rewrite <- (cached_instances_set_ne this type c1 t1 v1 w1)].
      rewrite invocation_count_note, decide_False by done. lia.
Qed.

Lemma invocation_count_zero this type w :
  (this, type) ∉ invocations w -> invocation_count this type w = 0.
Proof.
  unfold invocation_count. induction (invocations w) as [|e l IH]; [done|].
  intros Hnot. apply not_elem_of_cons in Hnot as [Hne Hl].
  rewrite filter_cons, decide_False by done. by apply IH.
Qed.

Lemma invocation_count_unregistered this type w :
  wf w -> ~ registered this type w -> invocation_count this type w = 0.
Proof.
  intros Hwf Hn. apply invocation_count_zero. intros Hin.
  by apply Hn, (wf_invoked _ Hwf).
Qed.

(** Decide a closed, decidable proposition by evaluation. *)
Ltac by_compute :=
  match goal with
  | |- ?P => refine (@bool_decide_unpack P _ _); vm_compute; exact I
  end.

(** * The claims *)

(** C3. At most one provider per token: [provide] on a token that already
    has a provider in the container throws the duplicate-registration error,
    whatever the provider and the scope, and so does [register] for a type
    that has one; on a token that has none, [provide] succeeds, and the token
    then stays registered through every later call. *)
Theorem provide_rejects_duplicates this type w :
  (registered this type w ->
   forall p scope,
     provide this type p scope w = Throw (provide_error type) w
     /\ forall ctor, type = TokType ctor ->
          register this ctor scope w = Throw (provide_error type) w)
  /\ (allocated this w -> ~ registered this type w ->
      forall p scope, exists w1,
        provide this type p scope w = Ok () w1
        /\ forall w2, steps w1 w2 -> registered this type w2).
Proof.
  split.
  - intros Hreg p scope. split.
    + rewrite provide_eq. by rewrite decide_True.
    + intros ctor ->. unfold register. rewrite provide_eq. by rewrite decide_True.
  - intros Halloc Hfresh p scope. eexists. split.
    + rewrite provide_eq. by rewrite decide_False.
    + intros w2 Hs. eapply steps_registered; [done|].
      unfold registered. rewrite dependencies_dependencies_set.
      rewrite decide_True by done. by rewrite lookup_insert_eq.
Qed.

Lemma provide_rejects_duplicates_witness :
  (exists w1,
     provide 0 (TokType EmailService) (Custom (fresh_factory EmailService))
       Singleton readme_world = Ok () w1
     /\ forall w2, steps w1 w2 -> registered 0 (TokType EmailService) w2)
  /\ (let w1 := dependencies_set 0 (TokNamed "mail")
                  (Custom (fresh_factory EmailService)) readme_world in
      provide 0 (TokNamed "mail") (Custom (constant_factory VUndefined)) Prototype w1
      = Throw (provide_error (TokNamed "mail")) w1).
Proof.
  split.
  - apply (proj2 (provide_rejects_duplicates 0 (TokType EmailService) readme_world)).
    + by_compute.
    + by_compute.
  - apply (proj1 (provide_rejects_duplicates 0 (TokNamed "mail") _)).
    by_compute.
Defined.

(** C10. A [provide] that throws changes nothing: the state after the
    exception is the state before the call, so the token is still bound to
    the provider registered first, the instance cache is as it was, and
    every later [resolve] does what it would have done without the failed
    call.  The same holds for [register]. *)
Theorem provide_failure_leaves_state this type p scope w e w' :
  provide this type p scope w = Throw e w' ->
  w' = w
  /\ e = provide_error type
  /\ (exists p0, dependencies (the_container this w') !! type = Some p0
                 /\ dependencies (the_container this w) !! type = Some p0)
  /\ (forall this', instances (the_container this' w')
                    = instances (the_container this' w))
  /\ (forall fuel this' type',
        resolve fuel this' type' w' = resolve fuel this' type' w).
Proof.
  rewrite provide_eq. case_decide as Hreg; [|done].
  intros [= <- <-]. destruct Hreg as [p0 Hp0]. eauto 10.
Qed.

Lemma provide_failure_leaves_state_witness :
  let w := dependencies_set 0 (TokNamed "mail")
             (Custom (fresh_factory EmailService)) readme_world in
  dependencies_set 0 (TokNamed "mail")
    (Custom (fresh_factory EmailService)) readme_world = w
  /\ provide_error (TokNamed "mail") = provide_error (TokNamed "mail")
  /\ (exists p0, dependencies (the_container 0 w) !! TokNamed "mail" = Some p0
                 /\ dependencies (the_container 0 w) !! TokNamed "mail" = Some p0)
  /\ (forall this', instances (the_container this' w)
                    = instances (the_container this' w))
  /\ (forall fuel this' type',
        resolve fuel this' type' w = resolve fuel this' type' w).
Proof.
  intros w.
  apply (provide_failure_leaves_state 0 (TokNamed "mail")
           (Custom (constant_factory VUndefined)) Singleton w).
  vm_compute. reflexivity.
Defined.

(** C4. Resolving a token that has no provider in the container throws the
    unregistered-token error, with the state unchanged.  It does so too when
    the token is a constructor parameter of a registered class: once the
    parameters before it are resolved, resolving the class throws that same
    error; and an exception thrown while a parameter is resolved is, in
    general, the exception of the enclosing [resolve], so the error surfaces
    from any depth. *)
Theorem unregistered_token_fails this type w :
  ~ registered this type w ->
  (forall fuel, resolve fuel this type w = Throw (resolve_error type) w)
  /\ (forall ctor scope fuel pre post w1 args w2,
        registered_class this ctor scope w ->
        getParams ctor (note_invocation this (TokType ctor) w)
          = Ok (pre ++ Some type :: post) w1 ->
        array_map (resolve fuel this) pre w1 = Ok args w2 ->
        forall fuel', fuel + 2 <= fuel' ->
          resolve fuel' this (TokType ctor) w = Throw (resolve_error type) w2)
  /\ (forall ctor scope fuel pre type' post w1 args w2 e w3,
        registered_class this ctor scope w ->
        getParams ctor (note_invocation this (TokType ctor) w)
          = Ok (pre ++ Some type' :: post) w1 ->
        array_map (resolve fuel this) pre w1 = Ok args w2 ->
        resolve fuel this type' w2 = Throw e w3 ->
        forall fuel', fuel + 2 <= fuel' ->
          resolve fuel' this (TokType ctor) w = Throw e w3).
Proof.
  intros Hnone.
  assert (forall w', extends w w' -> forall fuel,
            resolve fuel this type w' = Throw (resolve_error type) w') as Hdirect.
  { intros w' Hext fuel. rewrite resolve_eq, (ext_dependencies _ _ Hext).
    apply eq_None_not_Some in Hnone. by rewrite Hnone. }
  assert (forall ctor scope fuel pre type' post w1 args w2 e w3,
        registered_class this ctor scope w ->
        getParams ctor (note_invocation this (TokType ctor) w)
          = Ok (pre ++ Some type' :: post) w1 ->
        array_map (resolve fuel this) pre w1 = Ok args w2 ->
        resolve fuel this type' w2 = Throw e w3 ->
        forall fuel', fuel + 2 <= fuel' ->
          resolve fuel' this (TokType ctor) w = Throw e w3) as Hdeep.
  { intros ctor scope fuel pre type' post w1 args w2 e w3 Hreg Hparams Hpre Hthrow
      fuel' Hfuel.
    eapply resolve_registered_class_throws; [done| |done].
    eapply create_param_throws; eauto. }
  split_and!; [by apply Hdirect|..|done].
  intros ctor scope fuel pre post w1 args w2 Hreg Hparams Hpre fuel' Hfuel.
  eapply Hdeep; [done..| |done].
  apply Hdirect. etrans; [apply extends_note_invocation|].
  etrans.
  - eapply (post_Ok extends), Hparams. apply post_getParams.
  - eapply (post_Ok extends), Hpre. apply post_array_map_resolve.
Qed.

Lemma unregistered_token_fails_witness :
  let w := dependencies_set 0 (TokType MyApplication)
             (SingletonClosure 0 (TokType MyApplication) (CreateClosure 0 MyApplication))
             readme_world in
  (forall fuel, resolve fuel 0 (TokType EmailService) w
                = Throw (resolve_error (TokType EmailService)) w)
  /\ (exists w2, forall fuel', 2 <= fuel' ->
         resolve fuel' 0 (TokType MyApplication) w
         = Throw (resolve_error (TokType EmailService)) w2).
Proof.
  intros w.
  destruct (unregistered_token_fails 0 (TokType EmailService) w) as (H1 & H2 & _);
    [by_compute|].
  split; [exact H1|]. eexists. intros fuel' Hfuel.
  eapply (H2 MyApplication Singleton 0 [] []).
  - split; [vm_compute; reflexivity|by_compute].
  - vm_compute. reflexivity.
  - vm_compute. reflexivity.
  - exact Hfuel.
Defined.

(** C9. The message of the unregistered-token error is built from
    [type.name].  For a class that is its name; a named token has no [name],
    so the message reads "undefined" whatever the token: the errors for two
    different named tokens are the same error, and the token cannot be told
    from it.  In the README's interface binding, resolving [MyApplication]
    while nothing is provided under "EmailService" throws exactly that. *)
Theorem resolve_error_omits_named_token :
  (forall ctor, message (resolve_error (TokType ctor))
                = "Error resolving type " +:+ ctor_name ctor)
  /\ (forall name, message (resolve_error (TokNamed name))
                   = "Error resolving type undefined")
  /\ resolve_error (TokNamed "EmailService") = resolve_error (TokNamed "Logger")
  /\ thrown ((do _ <- register 0 MyApplication Singleton;
               resolve 2 0 (TokType MyApplication)) interface_world)
     = Some (JsError "Error resolving type undefined")
  /\ message (provide_error (TokNamed "EmailService"))
     = "Type EmailService already has a registered provider".
Proof.
  split_and!; [done..| |done].
  vm_compute. reflexivity.
Qed.





(** C2. Constructor injection.  [A] declares no constructor parameter, [B]
    declares [A] as its only one, and neither is registered yet.  After
    [register(A, Singleton)] and [register(B, Singleton)], [resolve(B)]
    returns, given fuel for the two nested resolutions: it resolves [B]'s
    parameter through the container and passes the result to [B]'s
    constructor, so the object it returns is a [B] holding an [A], and
    that [A] is the very instance every later [resolve(A)] returns. *)
Theorem constructor_injection this A B w :
  wf w -> allocated this w ->
  ~ registered this (TokType A) w -> ~ registered this (TokType B) w ->
  declared_params A w = [] -> overrides A w = ∅ ->
  declared_params B w = [Some (TokType A)] -> overrides B w = ∅ ->
  exists w2,
    (do _ <- register this A Singleton; register this B Singleton) w = Ok () w2
    /\ forall fuel, 4 <= fuel -> exists a b w3,
         resolve fuel this (TokType B) w2 = Ok (VObject b) w3
         /\ heap w3 !! b = Some {| obj_class := B; obj_args := [VObject a] |}
         /\ heap w3 !! a = Some {| obj_class := A; obj_args := [] |}
         /\ forall fuel', 0 < fuel' ->
              resolve fuel' this (TokType A) w3 = Ok (VObject a) w3.
Proof.
  intros Hwf Ha HnA HnB HdA HoA HdB HoB.
  assert (A <> B) as Hne by (intros ->; congruence).
  assert (effective_params A w = []) as HpA
    by (by rewrite effective_params_no_overrides).
  assert (effective_params B w = [Some (TokType A)]) as HpB
    by (by rewrite effective_params_no_overrides).
  assert (~ cached this (TokType A) w) as HcA.
  { intros Hc. apply HnA. destruct (wf_cached _ Hwf _ _ Hc) as [[raw ?] _]. by eexists. }
  assert (~ cached this (TokType B) w) as HcB.
  { intros Hc. apply HnB. destruct (wf_cached _ Hwf _ _ Hc) as [[raw ?] _]. by eexists. }
  set (sA := SingletonClosure this (TokType A) (CreateClosure this A)).
  set (sB := SingletonClosure this (TokType B) (CreateClosure this B)).
  set (w1 := dependencies_set this (TokType A) sA w).
  set (w2 := dependencies_set this (TokType B) sB w1).
  assert (dependencies (the_container this w2) !! TokType A = Some sA) as HdepA.
  { unfold w2, w1. rewrite dependencies_set_lookup_ne by congruence.
    by apply dependencies_set_lookup. }
  assert (dependencies (the_container this w2) !! TokType B = Some sB) as HdepB.
  { unfold w2. apply dependencies_set_lookup. by apply allocated_dependencies_set. }
  assert (forall type, instances (the_container this w2) !! type
                       = instances (the_container this w) !! type) as Hinst.
  { intros type. unfold w2, w1. by rewrite !instances_dependencies_set. }
  exists w2. split.
  { unfold bind, register. rewrite provide_eq, decide_False by done.
    rewrite provide_eq, decide_False; [done|].
    unfold registered. by rewrite dependencies_set_lookup_ne by congruence. }
  (* the states of the resolution, from the outside in *)
  set (wB := after_getParams B (note_invocation this (TokType B) w2)).
  set (wA := after_getParams A (note_invocation this (TokType A) wB)).
  set (a := length (heap w)).
  set (wA1 := instances_set this (TokType A) (VObject a)
                (set_heap (heap w ++ [{| obj_class := A; obj_args := [] |}]) wA)).
  assert (heap wB = heap w) as HheapB
    by (unfold wB; by rewrite heap_after_getParams).
  assert (resolve 2 this (TokType A) wB = Ok (VObject a) wA1) as HresA.
  { rewrite (resolve_singleton_miss _ _ _ (CreateClosure this A)).
    - rewrite invoke_create_eq, create_no_params.
      + change (heap (note_invocation this (TokType A) wB)) with (heap wB).
        unfold wA1, wA, a. by rewrite HheapB.
      + unfold wB, w2, w1.
        by rewrite effective_params_note_invocation, effective_params_after_getParams,
          effective_params_note_invocation, !effective_params_dependencies_set.
    - unfold wB.
      by rewrite the_container_after_getParams, the_container_note_invocation.
    - unfold cached, wB.
      by rewrite the_container_after_getParams, the_container_note_invocation, Hinst. }
  assert (pinned this (TokType A) (CreateClosure this A) (VObject a)
            (invocation_count this (TokType A) wA1) wA1) as HpinA.
  { split_and!; [..|done].
    - unfold wA1, wA, wB.
      by rewrite dependencies_instances_set, the_container_set_heap,
        the_container_after_getParams, the_container_note_invocation,
        the_container_after_getParams, the_container_note_invocation.
    - unfold wA1, wA, wB. apply instances_set_lookup.
      by apply allocated_set_heap, allocated_after_getParams, allocated_note_invocation,
        allocated_after_getParams, allocated_note_invocation,
        allocated_dependencies_set, allocated_dependencies_set. }
  set (b := S a).
  set (w3 := instances_set this (TokType B) (VObject b)
               (set_heap (heap wA1 ++ [{| obj_class := B; obj_args := [VObject a] |}])
                         wA1)).
  assert (heap wA1 = heap w ++ [{| obj_class := A; obj_args := [] |}]) as HheapA by done.
  assert (resolve 4 this (TokType B) w2 = Ok (VObject b) w3) as HresB.
  { rewrite (resolve_singleton_miss _ _ _ (CreateClosure this B)); [|done|].
    - rewrite invoke_create_eq, (create_one_param _ _ _ (TokType A))
        by (unfold w2, w1;
            by rewrite effective_params_note_invocation,
              !effective_params_dependencies_set).
      fold wB. rewrite HresA. unfold construct, w3, b.
      rewrite HheapA, length_app. simpl. by rewrite Nat.add_1_r.
    - unfold cached. by rewrite Hinst. }
  intros fuel Hfuel. exists a, b, w3. split_and!.
  - rewrite (resolve_fuel_mono 4) by (lia || by rewrite HresB). done.
  - replace (heap w3) with ((heap w ++ [{| obj_class := A; obj_args := [] |}])
                             ++ [{| obj_class := B; obj_args := [VObject a] |}])
      by done.
    rewrite lookup_app_r by (rewrite length_app; simpl; unfold b, a; lia).
    rewrite length_app. simpl.
    by replace (b - (length (heap w) + 1)) with 0 by (unfold b, a; lia).
  - replace (heap w3) with ((heap w ++ [{| obj_class := A; obj_args := [] |}])
                             ++ [{| obj_class := B; obj_args := [VObject a] |}])
      by done.
    rewrite lookup_app_l by (rewrite length_app; simpl; unfold a; lia).
    rewrite lookup_app_r by done. by rewrite Nat.sub_diag.
  - intros [|fuel'] Hfuel'; [lia|].
    eapply resolve_pinned.
    apply pinned_instances_set; [|congruence].
    exact HpinA.
Qed.

Lemma constructor_injection_witness :
  exists w2,
    register_both readme_world = Ok () w2
    /\ forall fuel, 4 <= fuel -> exists a b w3,
         resolve fuel 0 (TokType MyApplication) w2 = Ok (VObject b) w3
         /\ heap w3 !! b
            = Some {| obj_class := MyApplication; obj_args := [VObject a] |}
         /\ heap w3 !! a = Some {| obj_class := EmailService; obj_args := [] |}
         /\ forall fuel', 0 < fuel' ->
              resolve fuel' 0 (TokType EmailService) w3 = Ok (VObject a) w3.
Proof.
  apply (constructor_injection 0 EmailService MyApplication readme_world).
  - apply wf_initial_world.
  - by_compute.
  - by_compute.
  - by_compute.
  - vm_compute. reflexivity.
  - vm_compute. reflexivity.
  - vm_compute. reflexivity.
  - vm_compute. reflexivity.
Defined.

(** C6. Override by position.  When position [i] of [B]'s declared
    parameters has a token bound to it, [getParams] puts that token at
    position [i] in place of the declared one.  So the [i]-th argument of
    every construction of [B] that returns is what resolving the bound
    token returned; and [create] does return, with that argument in that
    place, as soon as the parameters before it, the bound token and the
    parameters after it resolve. *)
Theorem override_by_position this B i tok w :
  (0 <= i < Z.of_nat (length (declared_params B w)))%Z ->
  overrides B w !! i = Some tok ->
  effective_params B w !! Z.to_nat i = Some (Some tok)
  /\ (forall fuel v w',
        create fuel this B w = Ok v w' ->
        exists b o w1 x w2,
          v = VObject b /\ heap w' !! b = Some o /\ obj_class o = B
          /\ extends w w1 /\ resolve fuel this tok w1 = Ok x w2
          /\ obj_args o !! Z.to_nat i = Some x)
  /\ (forall fuel pre post ys1 w1 x w2 ys2 w3,
        effective_params B w = pre ++ Some tok :: post ->
        array_map (resolve fuel this) pre (after_getParams B w) = Ok ys1 w1 ->
        resolve fuel this tok w1 = Ok x w2 ->
        array_map (resolve fuel this) post w2 = Ok ys2 w3 ->
        exists w',
          create fuel this B w = Ok (VObject (length (heap w3))) w'
          /\ heap w' !! length (heap w3)
             = Some {| obj_class := B; obj_args := spread ys1 ++ x :: spread ys2 |}).
Proof.
  intros Hi Htok.
  assert (effective_params B w !! Z.to_nat i = Some (Some tok)) as Hpos
    by (apply apply_overrides_lookup; [done|lia]).
  split_and!; [done|..].
  - intros fuel v w' Hc.
    destruct (create_Ok_argument _ _ _ _ _ _ _ _ Hc Hpos)
      as (b & o & w1 & x & w2 & ? & ? & ? & _ & ? & ? & ?).
    by exists b, o, w1, x, w2.
  - intros fuel pre post ys1 w1 x w2 ys2 w3 Heff Hpre Hres Hpost.
    eexists. rewrite create_eq, getParams_after, Heff, array_map_app.
    unfold bind at 1. rewrite Hpre. simpl. unfold bind at 1 2. rewrite Hres.
    unfold bind at 1. rewrite Hpost. simpl. unfold construct. split; [done|].
    simpl. rewrite lookup_app_r, Nat.sub_diag by done. simpl.
    by rewrite spread_app.
Qed.

Lemma override_by_position_witness :
  let w := dependencies_set 0 (TokNamed "EmailService")
             (Custom (constant_factory (VObject 0))) interface_world_customA in
  effective_params MyApplication w !! 0 = Some (Some (TokNamed "EmailService"))
  /\ exists w',
       create 1 0 MyApplication w = Ok (VObject 1) w'
       /\ heap w' !! 1
          = Some {| obj_class := MyApplication; obj_args := [VObject 0] |}.
Proof.
  intros w.
  destruct (override_by_position 0 MyApplication 0 (TokNamed "EmailService") w)
    as (H1 & _ & H3).
  - vm_compute. split; [discriminate|reflexivity].
  - vm_compute. reflexivity.
  - split; [exact H1|].
    pose (w1 := after_getParams MyApplication w).
    pose (w2 := set_heap (heap w1 ++ [])
                  (note_invocation 0 (TokNamed "EmailService") w1)).
    assert (effective_params MyApplication w
            = [] ++ Some (TokNamed "EmailService") :: []) as Heff
      by (vm_compute; reflexivity).
    assert (dependencies (the_container 0 w1) !! TokNamed "EmailService"
            = Some (Custom (constant_factory (VObject 0)))) as Hdep
      by (vm_compute; reflexivity).
    exact (H3 1 [] [] [] w1 (VObject 0) w2 [] w2 Heff eq_refl
              (resolve_constant 0 0 _ _ w1 Hdep) eq_refl).
Defined.







(** * Further properties of the container *)


Lemma after_getParams_idemp ctor w :
  after_getParams ctor (after_getParams ctor w) = after_getParams ctor w.
Proof.
  unfold after_getParams at 1 3.
  destruct (design_paramtypes w !! ctor) as [ps|] eqn:E.
  - unfold after_getParams; rewrite E. simpl. rewrite lookup_insert_eq.
    rewrite effective_params_set_paramtypes by (by rewrite E).
    unfold set_paramtypes; simpl. by rewrite insert_insert_eq.
  - unfold after_getParams. by rewrite E, E.
Qed.


(** X3. Whether it returns or throws, [resolve] only adds: no registration
    of any container is added, removed or replaced, a cached instance is
    never removed or replaced, objects stay on the heap at their address,
    no container appears or disappears, and the override metadata is
    untouched. *)
Theorem resolve_only_adds fuel this type w w' :
  outcome_world (resolve fuel this type w) = Some w' ->
  (forall this', dependencies (the_container this' w')
                 = dependencies (the_container this' w))
  /\ (forall this' type' v,
        instances (the_container this' w) !! type' = Some v ->
        instances (the_container this' w') !! type' = Some v)
  /\ (forall a o, heap w !! a = Some o -> heap w' !! a = Some o)
  /\ length (containers w') = length (containers w)
  /\ token_key w' = token_key w.
Proof.
  intros Hw.
  assert (extends w w') as [Hh Hc Hd Hi Ht _ _].
  { pose proof (post_resolve fuel this type w) as H.
    destruct (resolve fuel this type w); by simplify_eq/=. }
  split_and!; [done| | |done..].
  - intros this' type' v Hv. eapply lookup_weaken; [exact Hv|apply Hi].
  - intros a o Ho. by eapply prefix_lookup_Some.
Qed.

Lemma resolve_only_adds_witness :
  let w := world_of (register_both readme_world) readme_world in
  let w' := world_of (resolve 4 0 (TokType MyApplication) w) w in
  dependencies (the_container 0 w') = dependencies (the_container 0 w)
  /\ length (containers w') = length (containers w).
Proof.
  intros w w'.
  destruct (resolve_only_adds 4 0 (TokType MyApplication) w w') as (H1 & _ & _ & H4 & _).
  - vm_compute. reflexivity.
  - split; [apply H1|exact H4].
Defined.

(** X4. In every state the interface can reach from a freshly loaded
    module, an instance is cached under a token only if the token is
    registered as a singleton, with the closure [singletonProvider] builds
    for that very token and container around a raw provider, and only after
    that raw provider has been called; nothing is ever cached under a
    prototype. *)
Theorem reachable_cache_invariant paramtypes tokens w this type :
  steps (initial_world paramtypes tokens) w ->
  cached this type w ->
  (exists raw,
     dependencies (the_container this w) !! type
       = Some (singletonProvider this type raw)
     /\ raw_provider this type raw)
  /\ 0 < invocation_count this type w.
Proof.
  intros Hs Hc.
  assert (wf w) as Hwf by (eapply steps_wf; [apply wf_initial_world|done]).
  destruct (wf_cached _ Hwf _ _ Hc) as [[raw Hraw] Hin]. split.
  - exists raw. split; [done|].
    pose proof (wf_stored _ Hwf _ _ _ Hraw) as Hst.
    inversion Hst as [q Hq Heq|q Hq Heq]; subst; [by inversion Hq|done].
  - destruct (invocation_count this type w) eqn:E; [|lia].
    exfalso. unfold invocation_count in E. apply nil_length_inv in E.
    assert ((this, type) ∈ filter (fun e => e = (this, type)) (invocations w)) as H
      by (by apply list_elem_of_filter).
    rewrite E in H. by apply elem_of_nil in H.
Qed.

Lemma step_world_of c w :
  (forall this, call_target c = Some this -> allocated this w) ->
  is_Some (outcome_world (run_call c w)) ->
  step w (world_of (run_call c w) w).
Proof.
  intros Ht [w' Hw']. exists c. split; [done|].
  unfold world_of. by rewrite Hw'.
Qed.

Lemma reachable_cache_invariant_witness :
  let w1 := world_of (run_call (CallRegister 0 EmailService Singleton) readme_world)
              readme_world in
  let w2 := world_of (run_call (CallResolve 3 0 (TokType EmailService)) w1) w1 in
  (exists raw,
     dependencies (the_container 0 w2) !! TokType EmailService
       = Some (singletonProvider 0 (TokType EmailService) raw)
     /\ raw_provider 0 (TokType EmailService) raw)
  /\ 0 < invocation_count 0 (TokType EmailService) w2.
Proof.
  intros w1 w2.
  apply (reachable_cache_invariant
           {[ EmailService := []; MyApplication := [Some (TokType EmailService)] ]} ∅).
  - apply rtc_l with w1; [|apply rtc_l with w2; [|apply rtc_refl]].
    + apply (step_world_of (CallRegister 0 EmailService Singleton)).
      * intros this Ht. simpl in Ht. simplify_eq. by_compute.
      * by_compute.
    + apply (step_world_of (CallResolve 3 0 (TokType EmailService))).
      * intros this Ht. simpl in Ht. simplify_eq. by_compute.
      * by_compute.
  - by_compute.
Defined.

Lemma circular_quiet this S w w' : quiet w w' -> circular this S w -> circular this S w'.
Proof.
  intros Hq Hc c Hs. destruct (Hc c Hs) as (scope & next & rest & [Hd Hn] & Hp & Hnext).
  exists scope, next, rest. split_and!; [split|..|done].
  - by rewrite (ext_dependencies _ _ (quiet_extends _ _ Hq)).
  - by rewrite (quiet_cached _ _ _ _ Hq).
  - by rewrite (ext_params _ _ (quiet_extends _ _ Hq)).
Qed.

Lemma circular_create this S c :
  forall fuel,
  (forall fuel' w c, fuel' <= fuel -> circular this S w -> S c ->
     resolve fuel' this (TokType c) w = OutOfFuel) ->
  forall w, circular this S w -> S c -> create fuel this c w = OutOfFuel.
Proof.
  intros fuel IH w Hc Hs.
  destruct (Hc c Hs) as (scope & next & rest & _ & Hp & Hnext).
  rewrite create_eq, getParams_after, Hp. simpl. unfold bind.
  rewrite IH; [done|lia| |done].
  eapply circular_quiet; [apply quiet_after_getParams|done].
Qed.

(** X5. Classes that depend on one another in a circle cannot be resolved:
    [resolve] of any of them never returns and never throws, however long
    it runs, because each [create] resolves the next class before it
    constructs anything, and no instance is cached until a constructor has
    returned. *)
Theorem circular_dependency_never_resolves this (S : Constructor -> Prop) w c :
  circular this S w -> S c ->
  forall fuel, resolve fuel this (TokType c) w = OutOfFuel.
Proof.
  intros Hc Hs fuel. revert w c Hc Hs.
  induction fuel as [fuel IH] using lt_wf_ind. intros w c Hc Hs.
  destruct (Hc c Hs) as (scope & next & rest & [Hd Hn] & Hp & Hnext).
  rewrite resolve_eq, Hd.
  destruct fuel as [|fuel]; [by destruct scope|].
  destruct scope; simpl stored_for; cbn [is_raw].
  - unfold singletonProvider. rewrite invoke_singleton_eq, decide_False by done.
    destruct fuel as [|fuel]; [done|].
    rewrite invoke_create_eq, (circular_create this S); [done| |by eapply circular_quiet; [apply quiet_note_invocation|]|done].
    intros fuel' w' c' Hle. apply IH. lia.
  - rewrite invoke_create_eq, (circular_create this S); [done| |by eapply circular_quiet; [apply quiet_note_invocation|]|done].
    intros fuel' w' c' Hle. apply IH. lia.
Qed.

Lemma circular_dependency_never_resolves_witness :
  resolve 40 0 (TokType EmailService) circular_world = OutOfFuel.
Proof.
  apply (circular_dependency_never_resolves 0
           (fun c => c = EmailService \/ c = MyApplication)).
  - intros c [->| ->].
    + exists Singleton, MyApplication, []. split_and!; [split|..].
      * vm_compute. reflexivity.
      * by_compute.
      * vm_compute. reflexivity.
      * by right.
    + exists Prototype, EmailService, []. split_and!; [split|..].
      * vm_compute. reflexivity.
      * by_compute.
      * vm_compute. reflexivity.
      * by left.
  - by left.
Defined.

(** X6. A [resolve] that fails is not rolled back.  [B] takes a singleton
    [tA] and then a token [tC] nothing is registered under.  Resolving [B]
    throws the error of [tC], and by then the provider of [tA] has been
    called and its instance cached, while nothing is cached for [B]: so
    [tA] resolves to that instance from then on without calling its
    provider, and [B]'s constructor parameters are looked up again on the
    next attempt. *)
Theorem failed_resolve_keeps_resolved_dependencies
    this B scope tA tC rest f objs v w :
  registered_class this B scope w ->
  effective_params B w = Some tA :: Some tC :: rest ->
  dependencies (the_container this w) !! tA
    = Some (singletonProvider this tA (Custom f)) ->
  ~ cached this tA w ->
  f (heap w) = (objs, Return v) ->
  ~ registered this tC w ->
  tA <> TokType B ->
  forall fuel, 4 <= fuel ->
  exists w',
    resolve fuel this (TokType B) w = Throw (resolve_error tC) w'
    /\ instances (the_container this w') !! tA = Some v
    /\ (forall fuel', 0 < fuel' -> resolve fuel' this tA w' = Ok v w')
    /\ ~ cached this (TokType B) w'
    /\ invocation_count this (TokType B) w' = S (invocation_count this (TokType B) w)
    /\ invocation_count this tA w' = S (invocation_count this tA w)
    /\ heap w' = heap w ++ objs.
Proof.
  intros HB Hparams HA HnA Hf HnC Hne fuel Hfuel.
  assert (allocated this w) as Halloc.
  { eapply registered_allocated. unfold registered. by rewrite HA. }
  set (wn := note_invocation this (TokType B) w).
  set (w1 := after_getParams B wn).
  set (w2 := instances_set this tA v
               (set_heap (heap w ++ objs) (note_invocation this tA w1))).
  assert (the_container this
            (set_heap (heap w ++ objs) (note_invocation this tA w1))
          = the_container this w) as Hsame.
  { unfold w1, wn.
    by rewrite the_container_set_heap, the_container_note_invocation,
      the_container_after_getParams, the_container_note_invocation. }
  assert (dependencies (the_container this w2) = dependencies (the_container this w))
    as Hdeps.
  { unfold w2. by rewrite dependencies_instances_set, Hsame. }
  assert (instances (the_container this w2) !! tA = Some v) as Hinst.
  { unfold w2. apply instances_set_lookup.
    apply allocated_set_heap, allocated_note_invocation.
    unfold w1. apply allocated_after_getParams.
    unfold wn. by apply allocated_note_invocation. }
  assert (invocations w2 = (invocations w ++ [(this, TokType B)]) ++ [(this, tA)])
    as Hlog.
  { unfold w2, w1, wn. simpl. by rewrite invocations_after_getParams. }
  assert (forall t, invocation_count this t w2
                    = invocation_count this t (note_invocation this tA wn))
    as Hcount.
  { intros t. unfold invocation_count. by rewrite Hlog. }
  assert (resolve 2 this tA w1 = Ok v w2) as HrA.
  { rewrite (resolve_singleton_miss _ _ _ (Custom f)).
    - assert (heap w1 = heap w) as Hh
        by (unfold w1; by rewrite heap_after_getParams).
      simpl. unfold call_factory. simpl. by rewrite !Hh, Hf.
    - unfold w1, wn.
      by rewrite the_container_after_getParams, the_container_note_invocation.
    - unfold cached, w1, wn.
      by rewrite the_container_after_getParams, the_container_note_invocation. }
  exists w2. split_and!.
  - eapply (resolve_registered_class_throws 2); [done| |lia].
    eapply (create_param_throws _ _ _ _ [Some tA]).
    + rewrite getParams_after, effective_params_note_invocation, Hparams. done.
    + simpl. unfold bind. fold wn w1. by rewrite HrA.
    + rewrite resolve_eq, Hdeps.
      unfold registered in HnC. apply eq_None_not_Some in HnC. by rewrite HnC.
  - done.
  - intros [|fuel'] Hpos; [lia|].
    rewrite resolve_eq, Hdeps, HA.
    cbn [is_raw singletonProvider]. rewrite invoke_singleton_eq.
    rewrite decide_True; [by rewrite Hinst|].
    unfold cached. by rewrite Hinst.
  - unfold w2. rewrite cached_instances_set_ne; [|congruence].
    unfold cached. rewrite Hsame. apply HB.
  - rewrite Hcount. unfold wn. rewrite !invocation_count_note.
    rewrite (decide_False (P := (this, tA) = (this, TokType B))) by congruence.
    rewrite decide_True by done. lia.
  - rewrite Hcount. unfold wn. rewrite !invocation_count_note.
    rewrite (decide_False (P := (this, TokType B) = (this, tA))) by congruence.
    rewrite decide_True by done. lia.
  - unfold w2. simpl. done.
Qed.

Lemma failed_resolve_keeps_resolved_dependencies_witness :
  exists w',
    resolve 4 0 (TokType MyApplication) missing_dependency_world
      = Throw (resolve_error (TokType ObjectCtor)) w'
    /\ instances (the_container 0 w') !! TokType EmailService = Some (VObject 0)
    /\ ~ cached 0 (TokType MyApplication) w'.
Proof.
  destruct (failed_resolve_keeps_resolved_dependencies 0 MyApplication Singleton
              (TokType EmailService) (TokType ObjectCtor) []
              (fresh_factory EmailService)
              [{| obj_class := EmailService; obj_args := [] |}] (VObject 0)
              missing_dependency_world) with (fuel := 4)
    as (w' & H1 & H2 & _ & H4 & _).
  - split; [vm_compute; reflexivity|by_compute].
  - vm_compute. reflexivity.
  - vm_compute. reflexivity.
  - by_compute.
  - reflexivity.
  - by_compute.
  - discriminate.
  - lia.
  - by exists w'.
Defined.

Lemma dependencies_set_commute this1 type1 q1 this2 type2 q2 w :
  (this1, type1) <> (this2, type2) ->
  dependencies_set this2 type2 q2 (dependencies_set this1 type1 q1 w)
  = dependencies_set this1 type1 q1 (dependencies_set this2 type2 q2 w).
Proof.
  intros Hne. unfold dependencies_set.
  rewrite !the_container_set_container. unfold set_container. simpl. f_equal.
  destruct (decide (this1 = this2)) as [->|Hthis].
  - assert (type1 <> type2) as Htype by congruence.
    destruct (decide (allocated this2 w)) as [Ha|Ha].
    + rewrite !decide_True by done. rewrite !list_insert_insert_eq. simpl.
      by rewrite insert_insert_ne.
    + unfold allocated in Ha. rewrite !list_insert_insert_eq.
      rewrite !list_insert_ge by lia. done.
  - rewrite !decide_False by (intros [? _]; congruence).
    by rewrite list_insert_insert_ne.
Qed.

(** X7. The order of two registrations does not matter.  Two [provide]
    calls for different tokens, or on different containers, neither of
    which is taken yet, both succeed in either order, and the two orders
    leave the same state. *)
Theorem provide_order_is_irrelevant this1 type1 p1 scope1 this2 type2 p2 scope2 w :
  (this1, type1) <> (this2, type2) ->
  ~ registered this1 type1 w -> ~ registered this2 type2 w ->
  exists w',
    (do _ <- provide this1 type1 p1 scope1; provide this2 type2 p2 scope2) w = Ok () w'
    /\ (do _ <- provide this2 type2 p2 scope2; provide this1 type1 p1 scope1) w = Ok () w'.
Proof.
  intros Hne H1 H2.
  assert (forall this type p this' type' w,
            (this, type) <> (this', type') -> ~ registered this' type' w ->
            ~ registered this' type' (dependencies_set this type p w)) as Hframe.
  { intros this type p this' type' w0 Hne' Hn. unfold registered.
    rewrite dependencies_dependencies_set. case_decide as Hd; [|done].
    destruct Hd as [-> _]. rewrite lookup_insert_ne by congruence. done. }
  eexists. unfold bind. rewrite !provide_eq.
  rewrite !(decide_False (P := registered _ _ w)) by done.
  rewrite !provide_eq.
  rewrite !decide_False by (apply Hframe; [congruence|done]).
  split; [reflexivity|]. by rewrite dependencies_set_commute.
Qed.

Lemma provide_order_is_irrelevant_witness :
  exists w',
    (do _ <- provide 0 (TokNamed "mail") (Custom (fresh_factory EmailService)) Prototype;
     register 0 MyApplication Singleton) readme_world = Ok () w'
    /\ (do _ <- register 0 MyApplication Singleton;
        provide 0 (TokNamed "mail") (Custom (fresh_factory EmailService)) Prototype)
         readme_world = Ok () w'.
Proof.
  apply (provide_order_is_irrelevant 0 (TokNamed "mail") _ Prototype
           0 (TokType MyApplication) (CreateClosure 0 MyApplication) Singleton).
  - discriminate.
  - by_compute.
  - by_compute.
Defined.

(** X8. The closure [singletonProvider] returns caches by token, not by
    provider.  Called directly, before anything is registered under the
    token, it calls its provider and caches the result in the container;
    every other closure made for the same token then returns that instance
    without calling its own provider, and so does [resolve] after a later
    singleton registration of the token, whose provider is never called. *)
Theorem singletonProvider_caches_by_token this type f objs v w :
  allocated this w -> ~ cached this type w ->
  f (heap w) = (objs, Return v) ->
  exists w1,
    invoke 2 (singletonProvider this type (Custom f)) w = Ok v w1
    /\ (forall p fuel, 0 < fuel ->
          invoke fuel (singletonProvider this type p) w1 = Ok v w1)
    /\ (~ registered this type w ->
        forall p, exists w2,
          provide this type p Singleton w1 = Ok () w2
          /\ forall fuel, 0 < fuel -> resolve fuel this type w2 = Ok v w2).
Proof.
  intros Halloc Hmiss Hf.
  set (w1 := instances_set this type v
               (set_heap (heap w ++ objs) (note_invocation this type w))).
  assert (instances (the_container this w1) !! type = Some v) as Hinst
    by (by apply instances_set_lookup).
  exists w1. split_and!.
  - unfold singletonProvider. rewrite invoke_singleton_eq, decide_False by done.
    simpl. unfold call_factory. simpl. rewrite Hf. fold w1. by rewrite Hinst.
  - intros p [|fuel] Hpos; [lia|].
    unfold singletonProvider. rewrite invoke_singleton_eq, decide_True.
    + by rewrite Hinst.
    + unfold cached. by rewrite Hinst.
  - intros Hfree p.
    assert (~ registered this type w1) as Hfree1.
    { unfold registered, w1. by rewrite dependencies_instances_set. }
    eexists. split.
    + rewrite provide_eq, decide_False by done. reflexivity.
    + intros [|fuel] Hpos; [lia|].
      assert (allocated this w1) as Halloc1.
      { unfold w1. by apply allocated_instances_set. }
      rewrite resolve_eq, dependencies_set_lookup by done.
      cbn [stored_for singletonProvider is_raw].
      rewrite invoke_singleton_eq, instances_dependencies_set, Hinst.
      rewrite decide_True; [done|].
      unfold cached. by rewrite instances_dependencies_set, Hinst.
Qed.

Lemma singletonProvider_caches_by_token_witness :
  exists w1,
    invoke 2 (singletonProvider 0 (TokNamed "mail")
                (Custom (fresh_factory EmailService))) readme_world
      = Ok (VObject 0) w1
    /\ forall p fuel, 0 < fuel ->
         invoke fuel (singletonProvider 0 (TokNamed "mail") p) w1 = Ok (VObject 0) w1.
Proof.
  destruct (singletonProvider_caches_by_token 0 (TokNamed "mail")
              (fresh_factory EmailService)
              [{| obj_class := EmailService; obj_args := [] |}] (VObject 0)
              readme_world) as (w1 & H1 & H2 & _).
  - by_compute.
  - by_compute.
  - reflexivity.
  - by exists w1.
Defined.

(** X9. A singleton whose provider throws is not cached.  [resolve]
    throws the provider's exception, the heap keeps what the provider
    allocated, and nothing is cached under the token.  The next [resolve]
    calls the provider again instead of rethrowing a remembered failure,
    and if the provider returns this time, its result is cached. *)
Theorem failed_singleton_is_retried this type f objs e w :
  dependencies (the_container this w) !! type
    = Some (singletonProvider this type (Custom f)) ->
  ~ cached this type w ->
  f (heap w) = (objs, Raise e) ->
  forall fuel, 2 <= fuel ->
  exists w',
    resolve fuel this type w = Throw e w'
    /\ heap w' = heap w ++ objs
    /\ ~ cached this type w'
    /\ invocation_count this type w' = S (invocation_count this type w)
    /\ forall fuel', 2 <= fuel' ->
       exists w'',
         outcome_world (resolve fuel' this type w') = Some w''
         /\ invocation_count this type w'' = S (S (invocation_count this type w))
         /\ forall objs' v,
              f (heap w') = (objs', Return v) ->
              resolve fuel' this type w' = Ok v w''
              /\ instances (the_container this w'') !! type = Some v.
Proof.
  intros Hdep Hmiss Hf fuel Hfuel.
  assert (allocated this w) as Halloc.
  { eapply registered_allocated. unfold registered. by rewrite Hdep. }
  set (w' := set_heap (heap w ++ objs) (note_invocation this type w)).
  assert (invocation_count this type w' = S (invocation_count this type w)) as Hcount.
  { change (invocation_count this type w')
      with (invocation_count this type (note_invocation this type w)).
    rewrite invocation_count_note, decide_True by done. lia. }
  exists w'. split_and!; [| done | done | done |].
  - destruct fuel as [|[|fuel]]; [lia..|].
    rewrite (resolve_singleton_miss _ _ _ (Custom f)) by done.
    simpl. unfold call_factory. simpl. by rewrite Hf.
  - intros [|[|fuel']] Hfuel'; [lia..|].
    rewrite (resolve_singleton_miss _ _ _ (Custom f)) by done.
    simpl. unfold call_factory. simpl.
    destruct (f (heap w ++ objs)) as [objs' [v|e']] eqn:Hf'; simpl.
    + eexists. split; [reflexivity|]. split.
      * match goal with
        | |- invocation_count _ _ (instances_set _ _ _ ?w0) = _ =>
            change (invocation_count this type (instances_set this type v w0))
              with (invocation_count this type (note_invocation this type w'))
        end.
        rewrite invocation_count_note, decide_True, Hcount by done. lia.
      * intros objs0 v0 [= <- <-]. split; [done|].
        by apply instances_set_lookup.
    + eexists. split; [reflexivity|]. split; [|done].
      match goal with
      | |- invocation_count _ _ ?w0 = _ =>
          change (invocation_count this type w0)
            with (invocation_count this type (note_invocation this type w'))
      end.
      rewrite invocation_count_note, decide_True, Hcount by done. lia.
Qed.

Lemma failed_singleton_is_retried_witness :
  exists w',
    resolve 2 0 (TokNamed "mail") failing_world = Throw (JsError "down") w'
    /\ ~ cached 0 (TokNamed "mail") w'.
Proof.
  destruct (failed_singleton_is_retried 0 (TokNamed "mail")
              (failing_factory (JsError "down")) [] (JsError "down")
              failing_world) with (fuel := 2) as (w' & H1 & _ & H3 & _).
  - vm_compute. reflexivity.
  - by_compute.
  - reflexivity.
  - lia.
  - by exists w'.
Defined.

Lemma step_containers_length w w' :
  step w w' -> length (containers w) <= length (containers w').
Proof.
  intros (c & Halloc & Hrun).
  destruct (call_target c) as [c1|] eqn:Ht.
  - by rewrite (run_call_containers_length c c1 w w').
  - destruct c; try discriminate. unfold run_call, bind, ret in Hrun.
    destruct (newContainer w) as [r w1| |] eqn:E; [|done..].
    injection Hrun as <-. injection E as <- <-. simpl. rewrite length_app. lia.
Qed.

Lemma steps_containers_length w w' :
  steps w w' -> length (containers w) <= length (containers w').
Proof.
  induction 1 as [|w1 w2 w3 Hs _ IH]; [done|].
  apply step_containers_length in Hs. lia.
Qed.

(** X10. The default container is one fixed container.  In every state the
    interface can reach, [getInstance] returns the same reference, which
    denotes an existing container, and [newContainer] never returns it:
    what is registered in a new container is not in the default one, and
    creating containers leaves the default one as it is. *)
Theorem default_container_is_never_new paramtypes tokens w :
  steps (initial_world paramtypes tokens) w ->
  exists d,
    getInstance (initial_world paramtypes tokens)
      = Ok d (initial_world paramtypes tokens)
    /\ getInstance w = Ok d w
    /\ allocated d w
    /\ forall r w',
         newContainer w = Ok r w' ->
         r <> d /\ getInstance w' = Ok d w'
         /\ the_container d w' = the_container d w
         /\ forall type p scope w'',
              provide r type p scope w' = Ok () w'' ->
              the_container d w'' = the_container d w.
Proof.
  intros Hs. apply steps_containers_length in Hs. simpl in Hs.
  exists 0. split_and!; [done|done|unfold allocated; lia|].
  intros r w' Hnew. injection Hnew as <- <-. split_and!; [lia|done| |].
  - unfold the_container. simpl. rewrite lookup_total_app_l by lia. done.
  - intros type p scope w'' Hp. rewrite provide_eq in Hp.
    case_decide; [done|]. injection Hp as <-.
    unfold dependencies_set. rewrite the_container_set_container.
    rewrite decide_False by (intros [? _]; lia).
    unfold the_container. simpl. rewrite lookup_total_app_l by lia. done.
Qed.

Lemma default_container_is_never_new_witness :
  exists d,
    getInstance readme_world = Ok d readme_world
    /\ forall r w', newContainer readme_world = Ok r w' -> r <> d.
Proof.
  destruct (default_container_is_never_new
              {[ EmailService := []; MyApplication := [Some (TokType EmailService)] ]}
              ∅ readme_world) as (d & _ & H2 & _ & H4).
  - apply rtc_refl.
  - exists d. split; [exact H2|]. intros r w' Hnew. by destruct (H4 r w' Hnew).
Defined.

Lemma mapped_in_order_hole {A B} (f : A -> M B) arr w ys w' j :
  mapped_in_order f arr w ys w' ->
  arr !! j = Some None -> ys !! j = Some None.
Proof.
  intros Hm. revert j.
  induction Hm as [w0|rest w0 ys w1 _ IH|x rest w0 y w1 ys w2 _ _ IH];
    intros [|j] Hj; simplify_eq/=; eauto.
Qed.



Lemma step_effective_params w w' ctor :
  step w w' -> effective_params ctor w' = effective_params ctor w.
Proof.
  intros (c & Halloc & Hrun).
  destruct c as [this type f scope|this ctor' scope|fuel this type|];
    unfold run_call in Hrun.
  - rewrite provide_eq in Hrun. case_decide; simplify_eq/=; [done|].
    apply effective_params_dependencies_set.
  - unfold register in Hrun. rewrite provide_eq in Hrun.
    case_decide; simplify_eq/=; [done|]. apply effective_params_dependencies_set.
  - unfold bind, ret in Hrun. pose proof (post_resolve fuel this type w) as H.
    destruct (resolve fuel this type w); simplify_eq/=; by apply ext_params.
  - unfold bind, ret in Hrun.
    destruct (newContainer w) as [r w1| |] eqn:E; [|done..].
    injection Hrun as <-. by injection E as <- <-.
Qed.

Lemma steps_effective_params w w' ctor :
  steps w w' -> effective_params ctor w' = effective_params ctor w.
Proof.
  induction 1 as [|w1 w2 w3 Hs _ IH]; [done|].
  by rewrite IH, (step_effective_params w1 w2).
Qed.

(** A [resolve] of a token registered as a singleton that returns leaves
    the returned value cached under the token. *)
Lemma resolve_singleton_Ok fuel this type raw w v w' :
  dependencies (the_container this w) !! type = Some (SingletonClosure this type raw) ->
  resolve fuel this type w = Ok v w' ->
  pinned this type raw v (invocation_count this type w') w'.
Proof.
  intros Hdep Hres.
  destruct (decide (cached this type w)) as [Hc|Hc].
  - rewrite resolve_eq, Hdep in Hres. cbn [is_raw] in Hres.
    destruct fuel as [|fuel]; [done|].
    rewrite invoke_singleton_eq, decide_True in Hres by done.
    injection Hres as <- <-. destruct Hc as [x Hx]. rewrite Hx. simpl.
    by split_and!.
  - by destruct (resolve_singleton_first _ _ _ _ _ _ _ Hdep Hc Hres)
      as (? & ? & _ & _ & _ & Hp).
Qed.

(** What resolving a class with one parameter, registered as a prototype,
    comes to. *)
Lemma resolve_prototype_class fuel this B tA w v w' :
  dependencies (the_container this w) !! TokType B = Some (CreateClosure this B) ->
  effective_params B w = [Some tA] ->
  resolve fuel this (TokType B) w = Ok v w' ->
  exists fuel' x wa,
    fuel = S fuel'
    /\ resolve fuel' this tA (after_getParams B (note_invocation this (TokType B) w))
       = Ok x wa
    /\ v = VObject (length (heap wa))
    /\ w' = set_heap (heap wa ++ [{| obj_class := B; obj_args := [x] |}]) wa.
Proof.
  intros Hdep Hparams Hres.
  rewrite (resolve_prototype _ _ _ (CreateClosure this B)) in Hres by done.
  destruct fuel as [|fuel]; [done|]. rewrite invoke_create_eq in Hres.
  rewrite (create_one_param _ _ _ tA) in Hres
    by (by rewrite effective_params_note_invocation).
  destruct (resolve fuel this tA _) as [x wa| |] eqn:E; [|done..].
  exists fuel, x, wa. unfold construct in Hres. injection Hres as <- <-. done.
Qed.

(** X12. A class in prototype scope shares its singleton dependencies.
    [B] is registered as a prototype and takes one parameter, registered as
    a singleton.  Two resolutions of [B] that return, with any calls in
    between, yield two distinct objects constructed with the same
    argument, and the second resolution does not call the dependency's
    provider. *)
Theorem prototype_shares_singleton_dependency this B tA raw w :
  registered_class this B Prototype w ->
  effective_params B w = [Some tA] ->
  dependencies (the_container this w) !! tA = Some (singletonProvider this tA raw) ->
  forall fuel v1 w1, resolve fuel this (TokType B) w = Ok v1 w1 ->
  forall w2, steps w1 w2 ->
  forall fuel' v2 w3, resolve fuel' this (TokType B) w2 = Ok v2 w3 ->
  exists b1 b2 a,
    v1 = VObject b1 /\ v2 = VObject b2 /\ b1 <> b2
    /\ heap w3 !! b1 = Some {| obj_class := B; obj_args := [a] |}
    /\ heap w3 !! b2 = Some {| obj_class := B; obj_args := [a] |}
    /\ invocation_count this tA w3 = invocation_count this tA w1.
Proof.
  intros [HB _] Hparams HA fuel v1 w1 Hr1 w2 Hs fuel' v2 w3 Hr2.
  simpl in HB.
  assert (tA <> TokType B) as Hne.
  { intros ->. rewrite HA in HB. discriminate. }
  destruct (resolve_prototype_class _ _ _ _ _ _ _ HB Hparams Hr1)
    as (f1 & x & wa & -> & HrA & -> & ->).
  assert (pinned this tA raw x (invocation_count this tA wa) wa) as Hpin.
  { eapply resolve_singleton_Ok; [|exact HrA].
    by rewrite the_container_after_getParams, the_container_note_invocation. }
  set (w1 := set_heap (heap wa ++ [{| obj_class := B; obj_args := [x] |}]) wa) in *.
  assert (pinned this tA raw x (invocation_count this tA wa) w2) as Hpin2.
  { eapply steps_pinned; [|exact Hs]. exact Hpin. }
  assert (extends w w1) as Hext.
  { pose proof (post_resolve (S f1) this (TokType B) w) as H. by rewrite Hr1 in H. }
  assert (dependencies (the_container this w2) !! TokType B
          = Some (CreateClosure this B)) as HB2.
  { eapply steps_dependencies; [exact Hs|].
    by rewrite (ext_dependencies _ _ Hext). }
  assert (effective_params B w2 = [Some tA]) as Hparams2.
  { by rewrite (steps_effective_params w1 w2), (ext_params _ _ Hext). }
  destruct (resolve_prototype_class _ _ _ _ _ _ _ HB2 Hparams2 Hr2)
    as (f2 & y & wb & -> & HrA2 & -> & ->).
  set (wn := after_getParams B (note_invocation this (TokType B) w2)) in *.
  assert (pinned this tA raw x (invocation_count this tA wa) wn) as Hpinn.
  { destruct Hpin2 as (Hd & Hi & Hn). unfold wn. split_and!.
    - by rewrite the_container_after_getParams, the_container_note_invocation.
    - by rewrite the_container_after_getParams, the_container_note_invocation.
    - unfold invocation_count. rewrite invocations_after_getParams.
      fold (invocation_count this tA (note_invocation this (TokType B) w2)).
      rewrite invocation_count_note, decide_False by congruence.
      unfold invocation_count in *. lia. }
  destruct f2 as [|f2].
  { rewrite resolve_eq in HrA2. destruct Hpinn as (Hd & _). by rewrite Hd in HrA2. }
  rewrite (resolve_pinned _ _ _ _ _ _ _ Hpinn) in HrA2. injection HrA2 as <- <-.
  assert (heap w1 `prefix_of` heap wn) as Hpre.
  { unfold wn. rewrite heap_after_getParams. exact (steps_heap w1 w2 Hs). }
  assert (length (heap w1) <= length (heap wn)) as Hlen by (by apply prefix_length).
  assert (length (heap w1) = S (length (heap wa))) as Hlen1.
  { unfold w1. simpl. rewrite length_app. simpl. lia. }
  exists (length (heap wa)), (length (heap wn)), x. split_and!; [done|done|lia| | |].
  - simpl. apply lookup_app_l_Some. eapply prefix_lookup_Some; [|exact Hpre].
    unfold w1. simpl. by rewrite lookup_app_r, Nat.sub_diag.
  - simpl. by rewrite lookup_app_r, Nat.sub_diag.
  - destruct Hpinn as (_ & _ & Hn). exact Hn.
Qed.

Lemma prototype_shares_singleton_dependency_witness :
  let w := shared_dependency_world in
  let w1 := world_of (resolve 4 0 (TokType MyApplication) w) w in
  let w3 := world_of (resolve 4 0 (TokType MyApplication) w1) w1 in
  exists b1 b2 a,
    VObject 1 = VObject b1 /\ VObject 2 = VObject b2 /\ b1 <> b2
    /\ heap w3 !! b1 = Some {| obj_class := MyApplication; obj_args := [a] |}
    /\ heap w3 !! b2 = Some {| obj_class := MyApplication; obj_args := [a] |}
    /\ invocation_count 0 (TokType EmailService) w3
       = invocation_count 0 (TokType EmailService) w1.
Proof.
  intros w w1 w3.
  apply (prototype_shares_singleton_dependency 0 MyApplication (TokType EmailService)
           (CreateClosure 0 EmailService) w) with (fuel := 4) (w2 := w1) (fuel' := 4).
  - split; [vm_compute; reflexivity|by_compute].
  - vm_compute. reflexivity.
  - vm_compute. reflexivity.
  - vm_compute. reflexivity.
  - apply rtc_refl.
  - vm_compute. reflexivity.
Defined.

(** X13. A singleton keeps the prototype it was constructed with.  [B] is
    registered as a singleton and takes one parameter, registered as a
    prototype whose provider produces fresh objects.  The first resolution
    of [B] that returns has constructed [B] with a new instance of the
    parameter; from then on [B] resolves to that same object, still
    holding that instance, while every resolution of the parameter itself
    yields another one. *)
Theorem singleton_keeps_its_prototype_dependency this B tA raw w :
  registered_class this B Singleton w ->
  effective_params B w = [Some tA] ->
  dependencies (the_container this w) !! tA = Some raw ->
  is_raw raw = true -> produces_fresh raw ->
  forall fuel v1 w1, resolve fuel this (TokType B) w = Ok v1 w1 ->
  exists b a,
    v1 = VObject b
    /\ heap w1 !! b = Some {| obj_class := B; obj_args := [VObject a] |}
    /\ forall w2, steps w1 w2 ->
         (forall fuel', 0 < fuel' ->
            resolve fuel' this (TokType B) w2 = Ok (VObject b) w2)
         /\ heap w2 !! b = Some {| obj_class := B; obj_args := [VObject a] |}
         /\ forall fuel' v w3,
              resolve fuel' this tA w2 = Ok v w3 ->
              exists a', v = VObject a' /\ a' <> a /\ a' <> b.
Proof.
  intros [HB Hmiss] Hparams HA Hraw Hfresh fuel v1 w1 Hr1.
  simpl in HB.
  destruct (resolve_singleton_first _ _ _ _ _ _ _ HB Hmiss Hr1)
    as (f1 & wx & -> & Hinv & -> & Hpin).
  destruct f1 as [|f1]; [done|]. rewrite invoke_create_eq in Hinv.
  rewrite (create_one_param _ _ _ tA) in Hinv
    by (by rewrite effective_params_note_invocation).
  set (wn := after_getParams B (note_invocation this (TokType B) w)) in *.
  destruct (resolve f1 this tA wn) as [x wa| |] eqn:HrA; [|done..].
  unfold construct in Hinv. injection Hinv as <- <-.
  assert (dependencies (the_container this wn) !! tA = Some raw) as HAn.
  { unfold wn. by rewrite the_container_after_getParams, the_container_note_invocation. }
  rewrite (resolve_prototype _ _ _ raw) in HrA by done.
  destruct (invoke_fresh _ raw _ _ _ Hfresh HrA) as (a & -> & _ & Ha).
  set (w1 := instances_set this (TokType B) (VObject (length (heap wa)))
               (set_heap (heap wa ++ [{| obj_class := B; obj_args := [VObject a] |}]) wa))
    in *.
  assert (heap w1 = heap wa ++ [{| obj_class := B; obj_args := [VObject a] |}]) as Hh1
    by done.
  assert (heap w1 !! length (heap wa)
          = Some {| obj_class := B; obj_args := [VObject a] |}) as Hb.
  { rewrite Hh1. by rewrite lookup_app_r, Nat.sub_diag. }
  exists (length (heap wa)), a. split_and!; [done|done|].
  intros w2 Hs. split_and!.
  - intros [|fuel'] Hpos; [lia|].
    eapply resolve_pinned, steps_pinned; [exact Hpin|exact Hs].
  - eapply prefix_lookup_Some; [exact Hb|by apply steps_heap].
  - intros fuel' v w3 Hr.
    assert (extends w w1) as Hext.
    { pose proof (post_resolve (S (S f1)) this (TokType B) w) as H.
      by rewrite Hr1 in H. }
    assert (dependencies (the_container this w2) !! tA = Some raw) as HA2.
    { eapply steps_dependencies; [exact Hs|]. by rewrite (ext_dependencies _ _ Hext). }
    rewrite (resolve_prototype _ _ _ raw) in Hr by done.
    destruct (invoke_fresh _ raw _ _ _ Hfresh Hr) as (a' & -> & Hlo & _).
    simpl in Hlo.
    pose proof (prefix_length _ _ (steps_heap _ _ Hs)) as Hlen.
    rewrite Hh1, length_app in Hlen. simpl in Hlen.
    exists a'. split_and!; [done|lia|lia].
Qed.

Lemma singleton_keeps_its_prototype_dependency_witness :
  let w := captive_dependency_world in
  let w1 := world_of (resolve 4 0 (TokType MyApplication) w) w in
  exists b a,
    VObject 1 = VObject b
    /\ heap w1 !! b = Some {| obj_class := MyApplication; obj_args := [VObject a] |}
    /\ forall w2, steps w1 w2 ->
         (forall fuel', 0 < fuel' ->
            resolve fuel' 0 (TokType MyApplication) w2 = Ok (VObject b) w2)
         /\ heap w2 !! b
            = Some {| obj_class := MyApplication; obj_args := [VObject a] |}
         /\ forall fuel' v w3,
              resolve fuel' 0 (TokType EmailService) w2 = Ok v w3 ->
              exists a', v = VObject a' /\ a' <> a /\ a' <> b.
Proof.
  intros w w1.
  apply (singleton_keeps_its_prototype_dependency 0 MyApplication
           (TokType EmailService) (CreateClosure 0 EmailService) w) with (fuel := 4).
  - split; [vm_compute; reflexivity|by_compute].
  - vm_compute. reflexivity.
  - vm_compute. reflexivity.
  - reflexivity.
  - exact I.
  - vm_compute. reflexivity.
Defined.

(** Resolving an array of tokens that all have a factory which returns:
    the factories are called from left to right, once per position. *)
Lemma array_map_resolve_factories fuel this params :
  forall w,
  (forall tok, Some tok ∈ params ->
     exists f, dependencies (the_container this w) !! tok = Some (Custom f)
               /\ forall h, exists objs v, f h = (objs, Return v)) ->
  exists args w' objs,
    array_map (resolve (S fuel) this) params w = Ok args w'
    /\ length args = length params
    /\ invocations w' = invocations w ++ ((fun tok => (this, tok)) <$> omap id params)
    /\ heap w' = heap w ++ objs
    /\ containers w' = containers w.
Proof.
  induction params as [|[tok|] params IH]; intros w Hall.
  - exists [], w, []. simpl. by rewrite !app_nil_r.
  - destruct (Hall tok) as (f & Hdep & Hret); [set_solver|].
    destruct (Hret (heap w)) as (objs & v & Hf).
    set (w1 := set_heap (heap w ++ objs) (note_invocation this tok w)).
    assert (resolve (S fuel) this tok w = Ok v w1) as Hres.
    { rewrite resolve_eq, Hdep. simpl. unfold call_factory. simpl. by rewrite Hf. }
    destruct (IH w1) as (args & w' & objs' & Hmap & Hlen & Hlog & Hheap & Hcont).
    { intros tok' Hin. destruct (Hall tok') as (f' & Hdep' & Hret'); [set_solver|].
      exists f'. split; [|done]. by rewrite <- Hdep'. }
    exists (Some v :: args), w', (objs ++ objs').
    cbn [array_map]. unfold bind. rewrite Hres, Hmap. simpl.
    split_and!; [done|by rewrite Hlen| | |done].
    + rewrite Hlog. simpl. by rewrite <- app_assoc.
    + rewrite Hheap. simpl. by rewrite <- app_assoc.
  - destruct (IH w) as (args & w' & objs' & Hmap & Hlen & Hlog & Hheap & Hcont).
    { intros tok' Hin. apply Hall. set_solver. }
    exists (None :: args), w', objs'.
    cbn [array_map]. unfold bind. rewrite Hmap. simpl.
    split_and!; [done|by rewrite Hlen|done..].
Qed.

(** X14. [create] resolves the constructor parameters from left to right,
    each position once, and constructs the object last.  For a class
    registered with [register] whose parameters all have a factory that
    returns, [resolve] returns; the providers called are the class's own
    and then those of its parameters in the order of the positions, empty
    positions being skipped; and the new object is allocated after
    everything the factories allocated, with one argument per position. *)
Theorem parameters_resolve_left_to_right this B scope w :
  registered_class this B scope w ->
  (forall tok, Some tok ∈ effective_params B w ->
     exists f, dependencies (the_container this w) !! tok = Some (Custom f)
               /\ forall h, exists objs v, f h = (objs, Return v)) ->
  forall fuel, 3 <= fuel ->
  exists b w' objs args,
    resolve fuel this (TokType B) w = Ok (VObject b) w'
    /\ invocations w'
       = invocations w
         ++ (this, TokType B)
            :: ((fun tok => (this, tok)) <$> omap id (effective_params B w))
    /\ heap w' = (heap w ++ objs) ++ [{| obj_class := B; obj_args := args |}]
    /\ b = length (heap w ++ objs)
    /\ length args = length (effective_params B w).
Proof.
  intros [HB Hmiss] Hall fuel Hfuel.
  destruct fuel as [|[|[|fuel]]]; [lia..|].
  set (wn := after_getParams B (note_invocation this (TokType B) w)).
  destruct (array_map_resolve_factories fuel this (effective_params B w) wn)
    as (args & w1 & objs & Hmap & Hlen & Hlog & Hheap & Hcont).
  { intros tok Hin. destruct (Hall tok Hin) as (f & Hdep & Hret).
    exists f. split; [|done]. unfold wn.
    by rewrite the_container_after_getParams, the_container_note_invocation. }
  assert (forall n, create (S fuel + n) this B (note_invocation this (TokType B) w)
          = Ok (VObject (length (heap w1)))
               (set_heap (heap w1 ++ [{| obj_class := B; obj_args := spread args |}]) w1))
    as Hcreate.
  { intros n.
    assert (create (S fuel) this B (note_invocation this (TokType B) w)
            = Ok (VObject (length (heap w1)))
                 (set_heap (heap w1 ++ [{| obj_class := B; obj_args := spread args |}])
                    w1)) as Hc0.
    { rewrite create_eq, getParams_after, effective_params_note_invocation.
      fold wn. by rewrite Hmap. }
    rewrite (create_fuel_mono (S fuel)); [done|lia|by rewrite Hc0]. }
  assert (heap w1 = heap w ++ objs) as Hheap'.
  { rewrite Hheap. unfold wn. by rewrite heap_after_getParams. }
  assert (invocations w1 = invocations w ++ (this, TokType B)
            :: ((fun tok => (this, tok)) <$> omap id (effective_params B w))) as Hlog'.
  { rewrite Hlog. unfold wn. rewrite invocations_after_getParams. simpl.
    by rewrite <- app_assoc. }
  destruct scope; simpl in HB.
  - eexists _, _, objs, (spread args).
    rewrite (resolve_singleton_miss _ _ _ (CreateClosure this B)) by done.
    rewrite invoke_create_eq.
    replace (S fuel) with (S fuel + 0) by lia. rewrite Hcreate.
    split_and!; [reflexivity| | | |].
    + exact Hlog'.
    + simpl. by rewrite Hheap'.
    + by rewrite Hheap'.
    + by rewrite length_spread.
  - eexists _, _, objs, (spread args).
    rewrite (resolve_prototype _ _ _ (CreateClosure this B)) by done.
    rewrite invoke_create_eq.
    replace (S (S fuel)) with (S fuel + 1) by lia. rewrite Hcreate.
    split_and!; [reflexivity| | | |].
    + exact Hlog'.
    + simpl. by rewrite Hheap'.
    + by rewrite Hheap'.
    + by rewrite length_spread.
Qed.

Lemma parameters_resolve_left_to_right_witness :
  exists b w' objs args,
    resolve 3 0 (TokType MyApplication) two_factories_world = Ok (VObject b) w'
    /\ invocations w'
       = invocations two_factories_world
         ++ (0, TokType MyApplication)
            :: ((fun tok => (0, tok))
                  <$> omap id (effective_params MyApplication two_factories_world))
    /\ heap w' = (heap two_factories_world ++ objs)
                 ++ [{| obj_class := MyApplication; obj_args := args |}]
    /\ b = length (heap two_factories_world ++ objs)
    /\ length args = length (effective_params MyApplication two_factories_world).
Proof.
  apply (parameters_resolve_left_to_right 0 MyApplication Singleton).
  - split; [vm_compute; reflexivity|by_compute].
  - intros tok Hin.
    assert (effective_params MyApplication two_factories_world
            = [Some (TokNamed "mail"); Some (TokNamed "log")]) as Heq
      by (vm_compute; reflexivity).
    rewrite Heq in Hin.
    apply elem_of_cons in Hin as [Hin|Hin]; [injection Hin as ->|].
    + exists (fresh_factory EmailService). split; [vm_compute; reflexivity|].
      intros h. by eexists _, _.
    + apply list_elem_of_singleton in Hin. injection Hin as ->.
      exists (constant_factory VUndefined). split; [vm_compute; reflexivity|].
      intros h. by eexists _, _.
  - lia.
Defined.

Lemma resolvable_extends n this :
  forall tok w w', extends w w' -> resolvable n this tok w -> resolvable n this tok w'.
Proof.
  induction n as [|n IH]; intros tok w w' Hext; [done|].
  intros (raw & scope & Hdep & Hraw). exists raw, scope. split.
  - by rewrite (ext_dependencies _ _ Hext).
  - destruct raw as [f|this' ctor|]; [done| |done].
    destruct Hraw as (-> & -> & Hall). split_and!; [done..|].
    intros t Hin. rewrite (ext_params _ _ Hext) in Hin. eauto.
Qed.

(** [array_map] returns when its callback returns on every element, from
    every later state. *)
Lemma array_map_returns {A B} (f : A -> M B) arr w0 :
  (forall x, post extends (f x)) ->
  (forall x w, Some x ∈ arr -> extends w0 w -> exists y w', f x w = Ok y w') ->
  forall w, extends w0 w -> exists ys w', array_map f arr w = Ok ys w'.
Proof.
  intros Hpost. induction arr as [|[x|] arr IH]; intros Hall w Hext.
  - by eexists _, _.
  - destruct (Hall x w) as (y & w1 & Hx); [set_solver|done|].
    destruct (IH) with (w := w1) as (ys & w2 & Hys).
    + intros x' w' Hin. apply Hall. set_solver.
    + etrans; [exact Hext|]. pose proof (Hpost x w) as H. by rewrite Hx in H.
    + cbn [array_map]. unfold bind. rewrite Hx, Hys. by eexists _, _.
  - destruct (IH) with (w := w) as (ys & w2 & Hys); [|done|].
    + intros x' w' Hin. apply Hall. set_solver.
    + cbn [array_map]. unfold bind. rewrite Hys. by eexists _, _.
Qed.

Lemma resolvable_create n this ctor w :
  (forall tok w, resolvable n this tok w ->
     exists v w', resolve (2 * n) this tok w = Ok v w') ->
  (forall t, Some t ∈ effective_params ctor w -> resolvable n this t w) ->
  forall fuel, 2 * n <= fuel ->
  exists v w', create fuel this ctor w = Ok v w'.
Proof.
  intros IH Hall fuel Hfuel.
  assert (exists v w', create (2 * n) this ctor w = Ok v w') as (v & w' & Hc).
  { rewrite create_eq, getParams_after.
    destruct (array_map_returns (resolve (2 * n) this) (effective_params ctor w)
                (after_getParams ctor w)) with (w := after_getParams ctor w)
      as (args & w2 & Hmap).
    - intros tok. apply post_resolve.
    - intros tok w1 Hin Hext. apply IH.
      eapply resolvable_extends; [|by apply Hall].
      etrans; [apply extends_after_getParams|done].
    - done.
    - rewrite Hmap. unfold construct. by eexists _, _. }
  exists v, w'. rewrite (create_fuel_mono (2 * n)); [done..|by rewrite Hc].
Qed.

(** X15. Without a circle, [resolve] returns.  A token whose provider is a
    factory that returns, or a class registered with [register] whose
    parameters are, to any depth, such tokens, resolves to a value, given
    fuel for two calls per level of nesting; the scopes do not matter, nor
    does what is cached already. *)
Theorem acyclic_dependencies_resolve n this tok w :
  resolvable n this tok w ->
  forall fuel, 2 * n <= fuel ->
  exists v w', resolve fuel this tok w = Ok v w'.
Proof.
  intros Hres fuel Hfuel.
  enough (exists v w', resolve (2 * n) this tok w = Ok v w') as (v & w' & Hr).
  { exists v, w'. rewrite (resolve_fuel_mono (2 * n)); [done..|by rewrite Hr]. }
  clear fuel Hfuel. revert tok w Hres.
  induction n as [|n IH]; intros tok w Hres; [done|].
  destruct Hres as (raw & scope & Hdep & Hraw).
  replace (2 * S n) with (S (S (2 * n))) by lia.
  destruct raw as [f|this' ctor|]; [| |done].
  - destruct scope; simpl in Hdep.
    + destruct (decide (cached this tok w)) as [Hc|Hc].
      * rewrite resolve_eq, Hdep. cbn [is_raw singletonProvider].
        rewrite invoke_singleton_eq, decide_True by done. by eexists _, _.
      * rewrite (resolve_singleton_miss _ _ _ (Custom f)) by done.
        simpl. unfold call_factory. simpl.
        destruct (Hraw (heap w)) as (objs & v & ->). by eexists _, _.
    + rewrite (resolve_prototype _ _ _ (Custom f)) by done.
      simpl. unfold call_factory. simpl.
      destruct (Hraw (heap w)) as (objs & v & ->). by eexists _, _.
  - destruct Hraw as (-> & -> & Hall).
    assert (forall fuel, 2 * n <= fuel -> exists v w',
              create fuel this ctor (note_invocation this (TokType ctor) w) = Ok v w')
      as Hcreate.
    { apply resolvable_create; [exact IH|].
      intros t Hin. rewrite effective_params_note_invocation in Hin.
      eapply resolvable_extends; [apply extends_note_invocation|by apply Hall]. }
    destruct scope; simpl in Hdep.
    + destruct (decide (cached this (TokType ctor) w)) as [Hc|Hc].
      * rewrite resolve_eq, Hdep. cbn [is_raw singletonProvider].
        rewrite invoke_singleton_eq, decide_True by done. by eexists _, _.
      * rewrite (resolve_singleton_miss _ _ _ (CreateClosure this ctor)) by done.
        rewrite invoke_create_eq.
        destruct (Hcreate (2 * n)) as (v & w' & ->); [lia|]. by eexists _, _.
    + rewrite (resolve_prototype _ _ _ (CreateClosure this ctor)) by done.
      rewrite invoke_create_eq.
      destruct (Hcreate (S (2 * n))) as (v & w' & ->); [lia|]. by eexists _, _.
Qed.

Lemma acyclic_dependencies_resolve_witness :
  exists v w', resolve 4 0 (TokType MyApplication) captive_dependency_world = Ok v w'.
Proof.
  apply (acyclic_dependencies_resolve 2); [|lia].
  exists (CreateClosure 0 MyApplication), Singleton. split; [vm_compute; reflexivity|].
  split_and!; [done..|].
  intros t Hin.
  assert (effective_params MyApplication captive_dependency_world
          = [Some (TokType EmailService)]) as Heq by (vm_compute; reflexivity).
  rewrite Heq in Hin. apply list_elem_of_singleton in Hin. injection Hin as ->.
  exists (CreateClosure 0 EmailService), Prototype. split; [vm_compute; reflexivity|].
  split_and!; [done..|].
  intros t Hin.
  assert (effective_params EmailService captive_dependency_world = []) as Heq'
    by (vm_compute; reflexivity).
  rewrite Heq' in Hin. by apply elem_of_nil in Hin.
Defined.
